(** * Behavioural model of [js/scripts.js]

    The script wires a static portfolio page: a light/dark theme switch, a
    collapsible navigation menu, smooth in-page scrolling, an active-section
    marker, entrance animations, a debounce helper, a skip link and the
    registration of an offline worker.  Every handler runs to completion on
    the UI thread, so each one is embedded as a function from the part of the
    page it touches to the page after the handler, together with the calls it
    makes on the browser (scrolling, focusing, logging, timers). *)

From Stdlib Require Import ZArith Lia List Sorted.
From stdpp Require Import base option list strings gmap.

Local Open Scope string_scope.
Local Open Scope Z_scope.

(** ** DOM elements

    An element carries what the script reads or writes on it: its tag, its
    attributes ([getAttribute]/[setAttribute]), its class list, its inline
    style and its [offsetTop]. *)
Module Dom.

Record element := Element {
  tagName : string;
  attributes : gmap string string;
  classList : gset string;
  style : gmap string string;
  offsetTop : Z
}.

Definition getAttribute (name : string) (e : element) : option string :=
  attributes e !! name.

Definition setAttribute (name value : string) (e : element) : element :=
  Element (tagName e) (<[name := value]> (attributes e)) (classList e)
          (style e) (offsetTop e).

Definition contains (c : string) (e : element) : bool :=
  bool_decide (c ∈ classList e).

Definition with_classes (cs : gset string) (e : element) : element :=
  Element (tagName e) (attributes e) cs (style e) (offsetTop e).

Definition add (c : string) (e : element) : element :=
  with_classes ({[c]} ∪ classList e) e.

Definition remove (c : string) (e : element) : element :=
  with_classes (classList e ∖ {[c]}) e.

(** [classList.toggle(c)]: removes the token when present, adds it otherwise. *)
Definition toggle (c : string) (e : element) : element :=
  if contains c e then remove c e else add c e.

Definition setStyle (prop value : string) (e : element) : element :=
  Element (tagName e) (attributes e) (classList e)
          (<[prop := value]> (style e)) (offsetTop e).

(** [Boolean.prototype.toString]. *)
Definition toString (b : bool) : string := if b then "true" else "false".

(** [x || d] on a value that is [null] or a string: the empty string is
    falsy as well. *)
Definition or_else (x : option string) (d : string) : string :=
  match x with
  | Some s => if String.eqb s "" then d else s
  | None => d
  end.

End Dom.

(** ** Theme controller ([initTheme], [toggleTheme], [announceThemeChange]) *)
Module Theme.
Import Dom.

Record state := State {
  body : element;
  localStorage : gmap string string;
  (** texts of the live-region nodes appended to the body, oldest first *)
  announced : list string
}.

Definition getItem (key : string) (s : state) : option string :=
  localStorage s !! key.

Definition initTheme (s : state) : state :=
  let savedTheme := or_else (getItem "theme" s) "dark" in
  State (setAttribute "data-theme" savedTheme (body s))
        (localStorage s) (announced s).

Definition announceThemeChange (theme : string) (s : state) : state :=
  State (body s) (localStorage s)
        (announced s ++ ["Theme changed to " +:+ theme +:+ " mode"]).

Definition flip (currentTheme : option string) : string :=
  match currentTheme with
  | Some t => if String.eqb t "dark" then "light" else "dark"
  | None => "dark"
  end.

Definition toggleTheme (s : state) : state :=
  let currentTheme := getAttribute "data-theme" (body s) in
  let newTheme := flip currentTheme in
  let s1 := State (setAttribute "data-theme" newTheme (body s))
                  (localStorage s) (announced s) in
  let s2 := State (body s1) (<["theme" := newTheme]> (localStorage s1))
                  (announced s1) in
  announceThemeChange newTheme s2.

Definition theme (s : state) : option string :=
  getAttribute "data-theme" (body s).

(** The preference as the next page load will read it. *)
Definition savedTheme (s : state) : string := or_else (getItem "theme" s) "dark".

Definition toggles (n : nat) (s : state) : state := Nat.iter n toggleTheme s.

(** What runs the two operations: a page load, a click on [#theme-toggle]. *)
Inductive action := Load | ToggleClick.

Definition perform (a : action) (s : state) : state :=
  match a with
  | Load => initTheme s
  | ToggleClick => toggleTheme s
  end.

Definition exec (acts : list action) (s : state) : state :=
  foldl (fun s a => perform a s) s acts.

Definition valid (t : string) : Prop := t = "light" \/ t = "dark".

(** Once a toggle has happened, attribute and stored value are both valid. *)
Definition settled (s : state) : Prop :=
  (exists t, theme s = Some t /\ valid t) /\
  (exists t, getItem "theme" s = Some t /\ valid t).

(** A first visit: nothing stored, no attribute on the body. *)
Definition fresh_visit : state :=
  State (Element "body" ∅ ∅ ∅ 0) ∅ [].

Definition parity_theme (n : nat) : string :=
  if Nat.even n then "dark" else "light".

(** Attribute and stored preference hold the same valid theme. *)
Definition synced (s : state) : Prop :=
  exists t, valid t /\ theme s = Some t /\ getItem "theme" s = Some t.

(** A later page load: a new body, the storage as it was left. *)
Definition reload (b : element) (s : state) : state :=
  initTheme (State b (localStorage s) []).

End Theme.

(** ** Selectors

    The script builds two kinds of selector strings from page data: [#frag]
    from an anchor's [href], and [a[href="#id"]] from a section's [id].  The
    first denotes the fragment literally when it is a plain identifier: an
    ASCII letter followed by letters, digits, [-] or [_]; the second when it
    consists of such characters.  Two kinds of fragment that the engine
    is sure to reject are modelled as well: [#frag] with a leading digit
    is no id selector, and a line feed inside the quotes of
    [a[href="#id"]] ends the string badly; [querySelector] throws a
    [SyntaxError] on both.  For any other fragment the selector engine
    may reject the selector or read it by other rules of the selector
    grammar; that is outside this model and reported as [Unmodelled]. *)
Module Selector.
Import Dom.

Definition is_letter (c : Ascii.ascii) : bool :=
  let n := Ascii.nat_of_ascii c in
  ((65 <=? n)%nat && (n <=? 90)%nat) || ((97 <=? n)%nat && (n <=? 122)%nat).

Definition is_ident_char (c : Ascii.ascii) : bool :=
  let n := Ascii.nat_of_ascii c in
  is_letter c || ((48 <=? n)%nat && (n <=? 57)%nat)
  || (n =? 45)%nat || (n =? 95)%nat.

Fixpoint all_ident_chars (s : string) : bool :=
  match s with
  | EmptyString => true
  | String c r => is_ident_char c && all_ident_chars r
  end.

Definition css_ident (s : string) : bool :=
  match s with
  | EmptyString => false
  | String c r => is_letter c && all_ident_chars r
  end.

Definition is_digit (c : Ascii.ascii) : bool :=
  let n := Ascii.nat_of_ascii c in (48 <=? n)%nat && (n <=? 57)%nat.

Definition starts_with_digit (s : string) : bool :=
  match s with
  | EmptyString => false
  | String c _ => is_digit c
  end.

(** Identifier characters and line feeds only. *)
Fixpoint ident_or_newline (s : string) : bool :=
  match s with
  | EmptyString => true
  | String c r =>
      (is_ident_char c || (Ascii.nat_of_ascii c =? 10)%nat) && ident_or_newline r
  end.

Inductive found :=
| Found (i : nat) (e : element)   (* the first match, at position [i] *)
| Null                            (* [querySelector] returned [null] *)
| SyntaxError                     (* [querySelector] threw *)
| Unmodelled.

Fixpoint first_match_from (P : element -> bool) (i : nat) (doc : list element)
  : found :=
  match doc with
  | [] => Null
  | e :: rest => if P e then Found i e else first_match_from P (S i) rest
  end.

Definition first_match (P : element -> bool) (doc : list element) : found :=
  first_match_from P 0 doc.

Definition has_id (ident : string) (e : element) : bool :=
  bool_decide (getAttribute "id" e = Some ident).

(** [document.querySelector("#" + frag)] *)
Definition querySelector_hash (frag : string) (doc : list element) : found :=
  if css_ident frag then first_match (has_id frag) doc
  else if starts_with_digit frag then SyntaxError
  else Unmodelled.

Definition is_anchor_to (href : string) (e : element) : bool :=
  String.eqb (tagName e) "a" && bool_decide (getAttribute "href" e = Some href).

(** [document.querySelectorAll("." + c)], as positions in document order. *)
Definition querySelectorAll_class (c : string) (doc : list element) : list nat :=
  List.filter (fun i => match doc !! i with
                        | Some e => contains c e
                        | None => false
                        end) (seq 0 (length doc)).

End Selector.

(** ** Navigation menu and scroll router
    ([bindEvents], [updateAriaAttributes], [setupSmoothScrolling], the
    debounced [resize] listener) *)
Module Nav.
Import Dom Selector.

(** [navbar] and [mobileToggle] are the elements [bindEvents] found for
    [.navbar] and [.mobile-menu-toggle] ([None] for [null]); they are two
    different elements.  [document] lists the elements of the page in
    document order; the handlers below only read it, and only [id] and
    [offsetTop].  The navbar and the toggle button may be listed there as
    well, since an anchor can point to them. *)
Record page := Page {
  navbar : option element;
  mobileToggle : option element;
  document : list element;
  innerWidth : Z
}.

(** Calls a handler makes on the event or on the browser, in program order. *)
Inductive call :=
| PreventDefault
| ScrollTo (top : Z)          (* [window.scrollTo({top, behavior: 'smooth'})] *)
| FocusToggle                 (* [mobileToggle.focus()] in the keydown listener *)
| FocusElement (i : nat).     (* [targetElement.focus()] in the anchor listener,
                                 by document position; the target is whatever
                                 element the anchor names, the toggle button
                                 included when it is listed at [i] *)

Definition with_navbar (nb : option element) (p : page) : page :=
  Page nb (mobileToggle p) (document p) (innerWidth p).

Definition with_toggle (b : option element) (p : page) : page :=
  Page (navbar p) b (document p) (innerWidth p).

Definition updateAriaAttributes (button menu : element) : element * element :=
  let isExpanded := contains "open" menu in
  let button' := setAttribute "aria-expanded" (toString isExpanded) button in
  let menu' := setAttribute "aria-hidden" (toString (negb isExpanded)) menu in
  (button', menu').

(** Click listener of the toggle button; it is bound only when both elements
    exist. *)
Definition toggleClick (p : page) : page :=
  match mobileToggle p, navbar p with
  | Some btn, Some nb =>
      let nb1 := toggle "open" nb in
      let '(btn', nb') := updateAriaAttributes btn nb1 in
      Page (Some nb') (Some btn') (document p) (innerWidth p)
  | _, _ => p
  end.

(** [navbar?.classList.contains('open')], [undefined] being falsy. *)
Definition navbar_open (p : page) : bool :=
  match navbar p with
  | Some nb => contains "open" nb
  | None => false
  end.

(** [navbar.classList.remove('open')] *)
Definition remove_open (p : page) : page :=
  with_navbar (Dom.remove "open" <$> navbar p) p.

(** [if (mobileToggle) mobileToggle.setAttribute('aria-expanded', 'false')] *)
Definition collapse_toggle (p : page) : page :=
  with_toggle (setAttribute "aria-expanded" "false" <$> mobileToggle p) p.

(** Click listener on [document]; [inNavbar] is [navbar.contains(e.target)]. *)
Definition documentClick (inNavbar : bool) (p : page) : page :=
  if negb (match navbar p with Some _ => inNavbar | None => false end)
     && navbar_open p
  then collapse_toggle (remove_open p)
  else p.

(** Keydown listener on [document] bound by [bindEvents]. *)
Definition documentKeydown (key : string) (p : page) : list call * page :=
  if String.eqb key "Escape" && navbar_open p then
    let p1 := remove_open p in
    match mobileToggle p1 with
    | Some _ => ([FocusToggle], collapse_toggle p1)
    | None => ([], p1)
    end
  else ([], p).

(** Body of the debounced [resize] listener. *)
Definition resizeHandler (p : page) : page :=
  if 768 <? innerWidth p then
    if navbar_open p then remove_open p else p
  else p.

Definition headerOffset (width : Z) : Z := if width <=? 768 then 80 else 0.

(** Click listener of an anchor whose [href] is ["#" + frag].  [None] when
    the listener does not run to its end: the lookup threw, or the selector
    is outside the modelled fragment. *)
Definition anchorClick (frag : string) (p : page) : option (list call * page) :=
  let targetId := "#" +:+ frag in
  if String.eqb targetId "#" || String.eqb targetId "#page-top" then
    Some ([PreventDefault; ScrollTo 0], p)
  else
    match querySelector_hash frag (document p) with
    | Found i targetElement =>
        let elementPosition :=
          offsetTop targetElement - headerOffset (innerWidth p) in
        let p' := if navbar_open p then remove_open p else p in
        Some ([PreventDefault; ScrollTo elementPosition; FocusElement i], p')
    | Null => Some ([], p)
    | SyntaxError | Unmodelled => None
    end.

(** *** Events

    A click reaches the listener of the element it lands on and then, by
    bubbling, the listener on [document]. *)
Inductive target :=
| OnToggle (inNavbar : bool)
| OnAnchor (frag : string) (inNavbar : bool)
| Elsewhere (inNavbar : bool).

Inductive event :=
| Click (t : target)
| Keydown (key : string)
| Resize (width : Z).      (* the window settles at [width] *)

Definition step (ev : event) (p : page) : option (list call * page) :=
  match ev with
  | Click (OnToggle inNavbar) => Some ([], documentClick inNavbar (toggleClick p))
  | Click (OnAnchor frag inNavbar) =>
      '(calls, p1) ← anchorClick frag p;
      Some (calls, documentClick inNavbar p1)
  | Click (Elsewhere inNavbar) => Some ([], documentClick inNavbar p)
  | Keydown key => Some (documentKeydown key p)
  | Resize width =>
      Some ([], resizeHandler (Page (navbar p) (mobileToggle p) (document p) width))
  end.

Fixpoint run (evs : list event) (p : page) : option (list call * page) :=
  match evs with
  | [] => Some ([], p)
  | ev :: rest =>
      '(c1, p1) ← step ev p;
      '(c2, p2) ← run rest p1;
      Some ((c1 ++ c2)%list, p2)
  end.

(** *** The menu state and its three mirrors *)
Definition aria_expanded (p : page) : option string :=
  mobileToggle p ≫= getAttribute "aria-expanded".

Definition aria_hidden (p : page) : option string :=
  navbar p ≫= getAttribute "aria-hidden".

(** Open marker, [aria-expanded] and [aria-hidden] agree. *)
Definition consistent (p : page) : Prop :=
  (navbar_open p = true <-> aria_expanded p = Some "true") /\
  (navbar_open p = true <-> aria_hidden p = Some "false").

(** The two elements that make up the menu. *)
Definition menu (p : page) : option element * option element :=
  (navbar p, mobileToggle p).

(** The events that close the menu: a click outside the navigation
    container, the Escape key, a resize, a click on an in-page anchor. *)
Inductive close_op :=
| OutsideClick
| EscapeKey
| ResizeTo (width : Z)
| AnchorClick (frag : string) (inNavbar : bool).

Definition close_event (c : close_op) : event :=
  match c with
  | OutsideClick => Click (Elsewhere false)
  | EscapeKey => Keydown "Escape"
  | ResizeTo width => Resize width
  | AnchorClick frag inNavbar => Click (OnAnchor frag inNavbar)
  end.

(** Anchor fragments whose click listener is covered by the model. *)
Definition modelled (c : close_op) : bool :=
  match c with
  | AnchorClick frag _ => String.eqb frag "" || css_ident frag
  | _ => true
  end.

(** The header correction in the words of the specification: 80 only below
    the breakpoint. *)
Definition headerOffset_below_breakpoint (width : Z) : Z :=
  if width <? 768 then 80 else 0.

(** *** A sample page: closed menu, one section, viewport 768 wide *)
Definition about_section : element :=
  Element "section" {["id" := "about"]} {["section"]} ∅ 500.

Definition closed_navbar : element :=
  Element "nav" {["aria-hidden" := "true"]} {["navbar"]} ∅ 0.

Definition toggle_button : element :=
  Element "button" {["aria-expanded" := "false"]} {["mobile-menu-toggle"]} ∅ 0.

Definition sample_page : page :=
  Page (Some closed_navbar) (Some toggle_button) [about_section] 768.

(** *** Keyboard focus

    [el.focus()] moves keyboard focus to [el] when the browser can focus
    it, and leaves focus where it was otherwise (a section without
    [tabindex], a disabled control).  [canFocus] stands for the browser's
    answer.  A [holder] says where focus is; when the toggle button is
    listed in the document at [i], [HeldBy i] is the button as well. *)
Inductive holder :=
| HeldByToggle                 (* [mobileToggle] *)
| HeldBy (i : nat)             (* the element listed at [i] in [document] *)
| HeldElsewhere.

Definition focus_call (canFocus : element -> bool) (p : page) (c : call)
    (active : holder) : holder :=
  match c with
  | FocusToggle =>
      match mobileToggle p with
      | Some b => if canFocus b then HeldByToggle else active
      | None => active
      end
  | FocusElement i =>
      match document p !! i with
      | Some e => if canFocus e then HeldBy i else active
      | None => active
      end
  | PreventDefault | ScrollTo _ => active
  end.

(** [document.activeElement] after the calls of a handler, made in order
    on the page [p]. *)
Definition activeElement (canFocus : element -> bool) (p : page)
    (calls : list call) (active : holder) : holder :=
  foldl (fun h c => focus_call canFocus p c h) active calls.

(** What a browser can focus, as far as the examples need it: an element
    that carries [tabindex], a link with an [href], a button or a form
    control.  The theorems hold for every [canFocus]. *)
Definition focusable (e : element) : bool :=
  bool_decide (is_Some (getAttribute "tabindex" e))
  || (String.eqb (tagName e) "a" && bool_decide (is_Some (getAttribute "href" e)))
  || bool_decide (tagName e ∈ ["button"; "input"; "select"; "textarea"]).

(** *** Two more sample pages

    A wide page whose second section carries [tabindex="-1"], and a page
    whose only section has an id that starts with a digit. *)
Definition contact_section : element :=
  Element "section" {["id" := "contact"; "tabindex" := "-1"]} {["section"]} ∅ 900.

Definition wide_page : page :=
  Page (Some closed_navbar) (Some toggle_button)
       [about_section; contact_section] 1024.

Definition numbered_section : element :=
  Element "section" {["id" := "1abc"]} {["section"]} ∅ 300.

Definition numbered_page : page :=
  Page (Some closed_navbar) (Some toggle_button) [numbered_section] 1024.

End Nav.

(** ** Section watcher (the observer callback of [initNavigation]) *)
Module Watcher.
Import Dom Selector.

(** An [IntersectionObserverEntry], as far as the callback reads it:
    [entry.target.id] and [entry.isIntersecting]. *)
Record entry := Entry {
  target_id : string;
  isIntersecting : bool
}.

(** [navLinks.forEach(link => link.classList.remove('active'))]; [navLinks]
    is the static node list taken once by [initNavigation], here the
    positions of its elements in the document. *)
Definition clear_active (navLinks : list nat) (doc : list element) : list element :=
  foldl (fun d i => alter (Dom.remove "active") i d) doc navLinks.

Definition mark_active (i : nat) (doc : list element) : list element :=
  alter (add "active") i doc.

(** The selector is [a[href="#id"]]; inside the quotes every string of
    identifier characters, the empty one included, stands for itself, and
    a line feed among such characters makes the selector invalid. *)
Definition activeLink (id : string) (doc : list element) : found :=
  if all_ident_chars id then first_match (is_anchor_to ("#" +:+ id)) doc
  else if ident_or_newline id then SyntaxError
  else Unmodelled.

Definition onEntry (navLinks : list nat) (e : entry) (doc : list element)
  : option (list element) :=
  if isIntersecting e then
    let doc1 := clear_active navLinks doc in
    match activeLink (target_id e) doc1 with
    | Found i _ => Some (mark_active i doc1)
    | Null => Some doc1
    | SyntaxError | Unmodelled => None
    end
  else Some doc.

(** [entries.forEach(...)] *)
Fixpoint callback (navLinks : list nat) (entries : list entry) (doc : list element)
  : option (list element) :=
  match entries with
  | [] => Some doc
  | e :: rest => onEntry navLinks e doc ≫= callback navLinks rest
  end.

(** The callbacks of a whole visit, one batch of entries each. *)
Fixpoint callbacks (navLinks : list nat) (batches : list (list entry))
    (doc : list element) : option (list element) :=
  match batches with
  | [] => Some doc
  | entries :: rest => callback navLinks entries doc ≫= callbacks navLinks rest
  end.

Definition is_active (doc : list element) (i : nat) : bool :=
  match doc !! i with
  | Some e => contains "active" e
  | None => false
  end.

(** Number of navigation links that carry the marker. *)
Definition active_count (navLinks : list nat) (doc : list element) : nat :=
  length (List.filter (is_active doc) navLinks).

(** Two elements that differ at most in the marker class. *)
Definition same_markup (e e' : element) : Prop :=
  tagName e = tagName e' /\ attributes e = attributes e' /\
  forall c, c <> "active" -> contains c e = contains c e'.

Definition well_formed (e : entry) : Prop := all_ident_chars (target_id e) = true.

(** *** A sample document: a brand anchor and two navigation links, both of
    them marked. *)
Definition link (href : string) (classes : gset string) : element :=
  Element "a" {["href" := href]} classes ∅ 0.

Definition sample_doc : list element :=
  [link "#page-top" {["brand"]};
   link "#about" {["nav-link"; "active"]};
   link "#skills" {["nav-link"; "active"]}].

(** [e'] is [e] up to the marker class. *)
Definition marker_only (e e' : element) : Prop :=
  e' = with_classes (classList e') e /\
  forall c, c <> "active" -> contains c e' = contains c e.

(** The element at [i] is an [a] element whose [href] attribute is [href],
    and no [a] element before it has that [href]. *)
Definition first_anchor_to (href : string) (doc : list element) (i : nat) : Prop :=
  (exists a, doc !! i = Some a /\ tagName a = "a" /\
             getAttribute "href" a = Some href) /\
  forall j b, (j < i)%nat -> doc !! j = Some b ->
              ~ (tagName b = "a" /\ getAttribute "href" b = Some href).

(** *** Two more sample documents

    A brand anchor that points to the same section as the navigation link
    after it; and the line feed, for a section id that holds one. *)
Definition shadowed_doc : list element :=
  [link "#about" {["brand"]};
   link "#about" {["nav-link"]};
   link "#skills" {["nav-link"]}].

Definition line_feed : string := String (Ascii.ascii_of_nat 10) EmptyString.

End Watcher.

(** ** Skip link (the top-level [keydown] listener and the two listeners it
    binds on the link it creates) *)
Module SkipLink.

Inductive focus := Body | Link | About | Elsewhere.

(** [about] is what [document.querySelector('#about')] finds: [None] for
    [null], otherwise whether the element can take focus. *)
Record page := Page {
  about : option bool;
  linkInBody : bool;
  activeElement : focus
}.

Inductive outcome :=
| Returned (p : page)
| Threw (error : string) (p : page).   (* the page when the handler threw *)

Definition documentKeydown (key : string) (shiftKey : bool) (p : page) : page :=
  match activeElement p with
  | Body =>
      if String.eqb key "Tab" && negb shiftKey
      then Page (about p) true Link      (* [insertBefore], [skipLink.focus()] *)
      else p
  | _ => p
  end.

(** [blur] listener of the link. *)
Definition linkBlur (p : page) : page :=
  if linkInBody p then Page (about p) false (activeElement p) else p.

(** [element.focus()] on [#about]: when focus moves away from the link, the
    link's [blur] listener runs before [focus()] returns. *)
Definition focusAbout (focusable : bool) (p : page) : page :=
  if focusable then
    let p1 := match activeElement p with Link => linkBlur p | _ => p end in
    Page (about p1) (linkInBody p1) About
  else p.

(** [click] listener of the link.  Once [removeChild] has taken the link
    out of the document, the browser reports the body as the active element
    if the link had focus. *)
Definition linkClick (p : page) : outcome :=
  match about p with
  | None => Threw "TypeError" p                 (* [null.focus] *)
  | Some focusable =>
      let p1 := focusAbout focusable p in
      if linkInBody p1
      then Returned (Page (about p1) false
                          (match activeElement p1 with
                           | Link => Body    (* the focused link is gone *)
                           | holder => holder
                           end))
      else Threw "NotFoundError" p1             (* [removeChild] of a non-child *)
  end.

End SkipLink.

(** ** Offline worker registration (end of the script) *)
Module Worker.

Record environment := Environment {
  hasServiceWorker : bool;      (* ['serviceWorker' in navigator] *)
  userAgent : string;           (* [navigator.userAgent] *)
  hostname : string             (* [location.hostname]; the script never reads it *)
}.

Inductive effect :=
| Register (scriptURL : string)
| ConsoleLog (message : string).

(** [String.prototype.includes] *)
Fixpoint includes (needle s : string) : bool :=
  String.prefix needle s ||
  match s with
  | EmptyString => false
  | String _ rest => includes needle rest
  end.

(** Whether evaluating the script binds the [load] listener. *)
Definition bindsLoadListener (env : environment) : bool :=
  hasServiceWorker env && negb (includes "localhost" (userAgent env)).

(** What happens at [load]; [resolves] tells whether the promise returned by
    [register] is fulfilled or rejected. *)
Definition onLoad (env : environment) (resolves : bool) : list effect :=
  if bindsLoadListener env then
    [Register "/sw.js";
     ConsoleLog (if resolves then "SW registered: " else "SW registration failed: ")]
  else [].

Definition attempts (env : environment) (resolves : bool) : Prop :=
  In (Register "/sw.js") (onLoad env resolves).

(** *** Two sample environments *)
Definition served_from_localhost : environment :=
  Environment true "Mozilla/5.0 (X11; Linux x86_64) Firefox/128.0" "localhost".

Definition agent_naming_localhost : environment :=
  Environment true "kiosk-localhost/1.0" "example.org".

End Worker.

(** ** Entrance animator (the observer callback of [initIntersectionObserver]) *)
Module Fade.
Import Dom.

(** [target] is the position of [entry.target] in [fadeElements]. *)
Record entry := Entry {
  target : nat;
  isIntersecting : bool
}.

(** A pending [setTimeout]: its delay in milliseconds and the element its
    closure reveals. *)
Record timer := Timer {
  delay : Z;
  element_of : nat
}.

(** [entries.forEach((entry, index) => ...)], [index] counted from [start]. *)
Fixpoint forEach_from (start : nat) (entries : list entry) : list timer :=
  match entries with
  | [] => []
  | entry :: rest =>
      (if isIntersecting entry
       then [Timer (Z.of_nat start * 100) (target entry)]
       else [])
      ++ forEach_from (S start) rest
  end.

Definition fadeCallback (entries : list entry) : list timer :=
  forEach_from 0 entries.

(** The initial styling done by [initIntersectionObserver]. *)
Definition arm (e : element) : element :=
  setStyle "transition" "opacity 0.6s ease, transform 0.6s ease"
    (setStyle "transform" "translateY(20px)" (setStyle "opacity" "0" e)).

(** Body of the timer closure. *)
Definition reveal (e : element) : element :=
  setStyle "transform" "translateY(0)" (setStyle "opacity" "1" e).

(** The elements [ms] milliseconds after the callback: every timer whose
    delay has passed has run, in the order they were set. *)
Definition elapse (ms : Z) (timers : list timer) (fadeElements : list element)
  : list element :=
  foldl (fun els t => if delay t <=? ms then alter reveal (element_of t) els else els)
        fadeElements timers.

Definition revealed (e : element) : Prop :=
  style e !! "opacity" = Some "1" /\ style e !! "transform" = Some "translateY(0)".

(** The schedule in the words of the specification: the delay of an
    intersecting element is 100ms times its index among the intersecting
    elements of the batch. *)
Definition schedule_by_intersecting_rank (entries : list entry) : list timer :=
  imap (fun k entry => Timer (Z.of_nat k * 100) (target entry))
       (List.filter isIntersecting entries).

(** Whether a timer for element [j] has run by [ms]. *)
Definition fired (ms : Z) (timers : list timer) (j : nat) : bool :=
  existsb (fun t => (delay t <=? ms) && (element_of t =? j)%nat) timers.

End Fade.

(** ** Timer delays

    [setTimeout(handler, delay)] takes its delay as a signed 32-bit number:
    an integer is reduced modulo 2^32 into the range from -2^31, and what
    is negative then counts as zero.  A delay of 2^31 or more is therefore
    not the wait it names. *)
Module Timers.

Definition toInt32 (n : Z) : Z :=
  (n + 2147483648) mod 4294967296 - 2147483648.

Definition timerDelay (delay : Z) : Z := Z.max 0 (toInt32 delay).

End Timers.

(** ** [PortfolioUtils.debounce]

    One debounced wrapper: its closure variable [timeout], the browser's
    timer table, and the log of the invocations of the wrapped function
    (time and arguments). *)
Module Debounce.
Section Wrapper.
Context {A : Type}.     (* the argument list of the wrapped function *)

Record timer := Timer {
  id : nat;
  due : Z;
  args : A              (* the arguments captured by [later] *)
}.

Record state := State {
  timeout : option nat;
  pending : list timer;
  nextId : nat;
  invoked : list (Z * A)
}.

Definition initial : state := State None [] 1 [].

Definition clearTimeout (tid : option nat) (timers : list timer) : list timer :=
  match tid with
  | Some n => List.filter (fun t => negb (id t =? n)%nat) timers
  | None => timers
  end.

(** [executedFunction(...args)] called at time [now]. *)
Definition executedFunction (wait now : Z) (a : A) (s : state) : state :=
  let timers := clearTimeout (timeout s) (pending s) in
  let t := Timer (nextId s) (now + Timers.timerDelay wait) a in
  State (Some (id t)) (timers ++ [t]) (S (nextId s)) (invoked s).

(** [later()], run by the timer [t] when it fires. *)
Definition later (t : timer) (s : state) : state :=
  State (timeout s) (clearTimeout (timeout s) (pending s)) (nextId s)
        (invoked s ++ [(due t, args t)]).

(** The timer that fires next among those due by [now]: the earliest, and
    among equals the oldest. *)
Fixpoint next_due (now : Z) (timers : list timer) : option timer :=
  match timers with
  | [] => None
  | t :: rest =>
      match next_due now rest with
      | Some t' =>
          if (due t <=? now) && (due t <=? due t') then Some t else Some t'
      | None => if due t <=? now then Some t else None
      end
  end.

Definition fire (t : timer) (s : state) : state :=
  later t (State (timeout s) (clearTimeout (Some (id t)) (pending s))
                 (nextId s) (invoked s)).

(** The event loop up to time [now].  No callback sets a timer, so one round
    per pending timer is enough. *)
Fixpoint advance_rounds (rounds : nat) (now : Z) (s : state) : state :=
  match rounds with
  | O => s
  | S n =>
      match next_due now (pending s) with
      | Some t => advance_rounds n now (fire t s)
      | None => s
      end
  end.

Definition advance (now : Z) (s : state) : state :=
  advance_rounds (length (pending s)) now s.

(** The wrapper is called at the listed times with the listed arguments. *)
Fixpoint run (wait : Z) (calls : list (Z * A)) (s : state) : state :=
  match calls with
  | [] => s
  | (now, a) :: rest => run wait rest (executedFunction wait now a (advance now s))
  end.

(** Each call comes less than [wait] after the one before it; [t] is the
    time of the previous call. *)
Fixpoint rapid (wait t : Z) (calls : list (Z * A)) : Prop :=
  match calls with
  | [] => True
  | (t', _) :: rest => t <= t' < t + wait /\ rapid wait t' rest
  end.

(** The wrapper is waiting on exactly one timer, set by a call at [t] with
    arguments [a], and the wrapped function has not run. *)
Definition armed (wait : Z) (s : state) (t : Z) (a : A) : Prop :=
  exists i, timeout s = Some i /\ pending s = [Timer i (t + wait) a] /\
            invoked s = [].

(** Each call comes more than the quiet period after the one before it. *)
Fixpoint spaced (wait t : Z) (calls : list (Z * A)) : Prop :=
  match calls with
  | [] => True
  | (t', _) :: rest => t + Timers.timerDelay wait < t' /\ spaced wait t' rest
  end.

(** At most one timer is pending, and it is the one [timeout] names. *)
Definition single_timer (s : state) : Prop :=
  pending s = [] \/ exists tm, pending s = [tm] /\ timeout s = Some (id tm).

(** What has run and what is pending, in order, is part of what was
    passed in. *)
Definition accounted (s : state) (passed : list A) : Prop :=
  single_timer s /\
  ((snd <$> invoked s) ++ (args <$> pending s))%list `sublist_of` passed.

(** The state between bursts: nothing pending, [log] run so far. *)
Definition idle (s : state) (log : list (Z * A)) : Prop :=
  pending s = [] /\ invoked s = log.

(** The time at which a call made at [c.1] gets through, with its
    arguments. *)
Definition delayed (wait : Z) (c : Z * A) : Z * A :=
  (c.1 + Timers.timerDelay wait, c.2).

End Wrapper.
Arguments timer : clear implicits.
Arguments state : clear implicits.
End Debounce.

(** ** Scroll effects (the observer callback of [initScrollEffects]) *)
Module ScrollEffects.
Import Dom.

(** The entries are those of [Fade]; [target] is here the position of
    [entry.target] in [animatedElements]. *)
Definition entry := Fade.entry.

(** Body of the [if (entry.isIntersecting)] branch. *)
Definition animate (target : element) : element :=
  let t1 := setStyle "animationDelay" "0s" target in
  let t2 := setStyle "animationPlayState" "running" t1 in
  if contains "skill-level" t2 then setStyle "transform" "scaleX(1)" t2 else t2.

Definition onEntry (e : entry) (animatedElements : list element) : list element :=
  if Fade.isIntersecting e
  then alter animate (Fade.target e) animatedElements
  else animatedElements.

(** [entries.forEach(...)] *)
Definition scrollCallback (entries : list entry) (animatedElements : list element)
  : list element :=
  foldl (fun els e => onEntry e els) animatedElements entries.

(** The animation of an element has been started. *)
Definition running (e : element) : Prop :=
  style e !! "animationDelay" = Some "0s" /\
  style e !! "animationPlayState" = Some "running" /\
  (contains "skill-level" e = true -> style e !! "transform" = Some "scaleX(1)").

(** Whether an intersecting entry of the batch points to element [j]. *)
Definition hit (entries : list entry) (j : nat) : bool :=
  existsb (fun e => Fade.isIntersecting e && (Fade.target e =? j)%nat) entries.

End ScrollEffects.

(** ** [PortfolioUtils.throttle]

    One throttled wrapper: its closure variable [inThrottle] (unset at
    first, which reads as false), the due times of the pending timers that
    reset it, and the log of the invocations of the wrapped function. *)
Module Throttle.
Section Wrapper.
Context {A : Type}.

Record state := State {
  inThrottle : bool;
  resets : list Z;
  invoked : list (Z * A)
}.

Definition initial : state := State false [] [].

(** The wrapper called at time [now]. *)
Definition call (limit now : Z) (a : A) (s : state) : state :=
  if inThrottle s then s
  else State true (resets s ++ [now + Timers.timerDelay limit])
             (invoked s ++ [(now, a)]).

(** The event loop up to time [now]: every reset timer due by then has run
    [inThrottle = false]. *)
Definition advance (now : Z) (s : state) : state :=
  State (if existsb (fun d => d <=? now) (resets s) then false else inThrottle s)
        (List.filter (fun d => negb (d <=? now)) (resets s))
        (invoked s).

(** The wrapper is called at the listed times with the listed arguments. *)
Fixpoint run (limit : Z) (calls : list (Z * A)) (s : state) : state :=
  match calls with
  | [] => s
  | (now, a) :: rest => run limit rest (call limit now a (advance now s))
  end.

(** Times that do not run backwards, from [t] on. *)
Fixpoint in_order (t : Z) (calls : list (Z * A)) : Prop :=
  match calls with
  | [] => True
  | (t', _) :: rest => t <= t' /\ in_order t' rest
  end.

(** Successive times at least [gap] apart. *)
Fixpoint apart (gap : Z) (times : list Z) : Prop :=
  match times with
  | t :: (t' :: _) as rest => t + gap <= t' /\ apart gap rest
  | _ => True
  end.

(** The wrapper as it stands at time [clock]: either throttled, with one
    reset pending [limit] after the last invocation, or free, the last
    invocation being at least [limit] back. *)
Definition paced (limit clock : Z) (s : state) : Prop :=
  apart (Timers.timerDelay limit) (fst <$> invoked s) /\
  match last (invoked s) with
  | None => inThrottle s = false /\ resets s = []
  | Some (t, _) =>
      inThrottle s = true /\ resets s = [t + Timers.timerDelay limit] \/
      inThrottle s = false /\ resets s = [] /\ t + Timers.timerDelay limit <= clock
  end.

End Wrapper.
Arguments state : clear implicits.
End Throttle.

(** ** The resize listener as bound: [debounce(handler, 250)] on [window]

    The state of the debounced wrapper together with the page.  The wrapped
    function takes no notice of its arguments, so they are modelled as
    [unit]; it reads [window.innerWidth] when it runs. *)
Module ResizeListener.
Import Nav.

Record state := State {
  wrapper : Debounce.state unit;
  page : Nav.page
}.

Definition start (p : Nav.page) : state := State Debounce.initial p.

Definition with_width (width : Z) (p : Nav.page) : Nav.page :=
  Page (navbar p) (mobileToggle p) (document p) width.

(** The event loop up to [now]: the timers due by then fire, and each
    invocation of the wrapped function runs the handler on the page. *)
Definition settle (now : Z) (s : state) : state :=
  let w := Debounce.advance now (wrapper s) in
  let runs := (length (Debounce.invoked w)
               - length (Debounce.invoked (wrapper s)))%nat in
  State w (Nat.iter runs resizeHandler (page s)).

(** A [resize] event at [now]: the window is [width] wide and the
    debounced wrapper is called. *)
Definition resize (now width : Z) (s : state) : state :=
  let s1 := settle now s in
  State (Debounce.executedFunction 250 now tt (wrapper s1))
        (with_width width (page s1)).

Fixpoint run (events : list (Z * Z)) (s : state) : state :=
  match events with
  | [] => s
  | (now, width) :: rest => run rest (resize now width s)
  end.

End ResizeListener.

(** ** The live region of [announceThemeChange]

    The announcement nodes among the children of the body, the timers that
    remove them, and the supply of new identities.  A node and the timer
    that removes it are created together and share their identity. *)
Module LiveRegion.

Record node := Node {
  key : nat;
  textContent : string
}.

Record state := State {
  liveNodes : list node;
  removals : list (Debounce.timer nat);   (* [args] is the node to remove *)
  fresh : nat
}.

Definition initial : state := State [] [] 0.

Inductive outcome :=
| Done (s : state)
| NotFoundError (s : state).    (* [removeChild] of a node that is no child *)

Definition message (theme : string) : string :=
  "Theme changed to " +:+ theme +:+ " mode".

(** [announceThemeChange(theme)] called at time [now]. *)
Definition announceThemeChange (theme : string) (now : Z) (s : state) : state :=
  State (liveNodes s ++ [Node (fresh s) (message theme)])
        (removals s ++ [Debounce.Timer (fresh s) (now + 1000) (fresh s)])
        (S (fresh s)).

(** [document.body.removeChild(announcement)] *)
Definition removeChild (k : nat) (nodes : list node) : option (list node) :=
  if existsb (fun n => key n =? k)%nat nodes
  then Some (List.filter (fun n => negb (key n =? k)%nat) nodes)
  else None.

(** The timer [t] fires: it leaves the timer table and its closure runs. *)
Definition fire (t : Debounce.timer nat) (s : state) : outcome :=
  let timers := Debounce.clearTimeout (Some (Debounce.id t)) (removals s) in
  match removeChild (Debounce.args t) (liveNodes s) with
  | Some nodes => Done (State nodes timers (fresh s))
  | None => NotFoundError (State (liveNodes s) timers (fresh s))
  end.

(** The event loop up to [now]; no closure sets a timer, so one round per
    pending timer is enough. *)
Fixpoint advance_rounds (rounds : nat) (now : Z) (s : state) : outcome :=
  match rounds with
  | O => Done s
  | S n =>
      match Debounce.next_due now (removals s) with
      | Some t =>
          match fire t s with
          | Done s' => advance_rounds n now s'
          | NotFoundError s' => NotFoundError s'
          end
      | None => Done s
      end
  end.

Definition advance (now : Z) (s : state) : outcome :=
  advance_rounds (length (removals s)) now s.

(** The theme changes at the listed times to the listed themes. *)
Fixpoint run (changes : list (Z * string)) (s : state) : outcome :=
  match changes with
  | [] => Done s
  | (now, theme) :: rest =>
      match advance now s with
      | Done s1 => run rest (announceThemeChange theme now s1)
      | NotFoundError s1 => NotFoundError s1
      end
  end.

(** An announcement still on the page: its identity, the time its removal
    is due, its text. *)
Record live := Live {
  live_key : nat;
  live_due : Z;
  live_text : string
}.

(** The nodes and the timers are those of the announcements [ls]. *)
Definition tracks (ls : list live) (s : state) : Prop :=
  NoDup (live_key <$> ls) /\
  Forall (fun l => (live_key l < fresh s)%nat) ls /\
  liveNodes s = (fun l => Node (live_key l) (live_text l)) <$> ls /\
  removals s
  = (fun l => Debounce.Timer (live_key l) (live_due l) (live_key l)) <$> ls.

(** The changes whose announcement is still due to stay at [now]. *)
Definition recent (now : Z) (changes : list (Z * string)) : list (Z * string) :=
  List.filter (fun c => now <? c.1 + 1000) changes.

(** The announcements [ls] are those of the changes [changes], in order,
    each due to go 1000ms after its change. *)
Definition shows (ls : list live) (changes : list (Z * string)) : Prop :=
  (fun l => (live_due l, live_text l)) <$> ls
  = (fun c => (c.1 + 1000, message c.2)) <$> changes.

End LiveRegion.

(** * Properties *)

(** ** Elements *)
Section DomFacts.
Import Dom.

Lemma contains_remove c e : contains c (remove c e) = false.
Proof.
  unfold contains, remove; simpl.
  apply bool_decide_eq_false.
  rewrite elem_of_difference, elem_of_singleton. tauto.
Qed.

Lemma contains_add c e : contains c (add c e) = true.
Proof.
  unfold contains, add; simpl.
  apply bool_decide_eq_true.
  rewrite elem_of_union, elem_of_singleton. tauto.
Qed.

Lemma contains_add_ne c d e : c <> d -> contains c (add d e) = contains c e.
Proof.
  intros Hne. unfold contains, add; simpl.
  apply bool_decide_ext.
  rewrite elem_of_union, elem_of_singleton. tauto.
Qed.

Lemma remove_absent c e : contains c e = false -> remove c e = e.
Proof.
  unfold contains, remove, with_classes; intros H.
  apply bool_decide_eq_false in H.
  destruct e as [t a cs st o]; simpl in *. f_equal.
  apply leibniz_equiv. intros x.
  rewrite elem_of_difference, elem_of_singleton.
  split; [tauto | intros Hx; split; [done | congruence]].
Qed.

Lemma contains_setAttribute c n v e :
  contains c (setAttribute n v e) = contains c e.
Proof. reflexivity. Qed.

Lemma getAttribute_set n v e : getAttribute n (setAttribute n v e) = Some v.
Proof. unfold getAttribute, setAttribute; simpl. apply lookup_insert_eq. Qed.

End DomFacts.

(** ** Theme controller *)
Section ThemeFacts.
Import Dom Theme.

Lemma flip_dark : flip (Some "dark") = "light".
Proof. reflexivity. Qed.

Lemma flip_not_dark v : v <> Some "dark" -> flip v = "dark".
Proof.
  destruct v as [t|]; simpl; [|done].
  intros Hne. destruct (String.eqb_spec t "dark") as [->|]; congruence.
Qed.

Lemma flip_valid v : valid (flip v).
Proof.
  destruct (decide (v = Some "dark")) as [->|Hne].
  - left. apply flip_dark.
  - right. by apply flip_not_dark.
Qed.

Lemma theme_toggleTheme s : theme (toggleTheme s) = Some (flip (theme s)).
Proof. unfold theme, toggleTheme; simpl. apply getAttribute_set. Qed.

Lemma getItem_toggleTheme s :
  getItem "theme" (toggleTheme s) = Some (flip (theme s)).
Proof. unfold getItem, toggleTheme; simpl. apply lookup_insert_eq. Qed.

Lemma storage_toggleTheme_ne s k :
  k <> "theme" -> localStorage (toggleTheme s) !! k = localStorage s !! k.
Proof. intros Hne. unfold toggleTheme; simpl. by apply lookup_insert_ne. Qed.

Lemma or_else_valid t d : valid t -> or_else (Some t) d = t.
Proof. by intros [-> | ->]. Qed.

Lemma parity_theme_S n : parity_theme (S n) = flip (Some (parity_theme n)).
Proof.
  unfold parity_theme. rewrite Nat.even_succ, <- Nat.negb_even.
  by destruct (Nat.even n).
Qed.

Lemma toggles_S n s : toggles (S n) s = toggleTheme (toggles n s).
Proof. reflexivity. Qed.

Lemma theme_toggles n s :
  theme s = Some "dark" -> theme (toggles n s) = Some (parity_theme n).
Proof.
  intros Hs. induction n as [|n IH]; [done|].
  rewrite toggles_S, theme_toggleTheme, IH. by rewrite parity_theme_S.
Qed.

Lemma getItem_toggles n s :
  theme s = Some "dark" ->
  getItem "theme" (toggles (S n) s) = Some (parity_theme (S n)).
Proof.
  intros Hs. rewrite toggles_S, getItem_toggleTheme, theme_toggles by done.
  by rewrite parity_theme_S.
Qed.

(** C2: after [initTheme] the document attribute is the stored value, or
    "dark" when nothing is stored; from a dark start, [n] calls of
    [toggleTheme] leave the attribute and the persisted preference at "dark"
    for even [n] and at "light" for odd [n]. *)
Theorem theme_lifecycle (s s0 : state) (n : nat) :
  getItem "theme" s ∈ [None; Some "light"; Some "dark"] ->
  theme s0 = Some "dark" ->
  savedTheme s0 = "dark" ->
  theme (initTheme s) = Some (default "dark" (getItem "theme" s)) /\
  theme (toggles n s0) = Some (parity_theme n) /\
  savedTheme (toggles n s0) = parity_theme n /\
  (n <> 0%nat -> getItem "theme" (toggles n s0) = Some (parity_theme n)).
Proof.
  intros Hstored Hdark Hsaved. split; [|split; [|split]].
  - unfold theme, initTheme; simpl. rewrite getAttribute_set. f_equal.
    rewrite !elem_of_cons, elem_of_nil in Hstored.
    destruct Hstored as [-> | [-> | [-> | []]]]; reflexivity.
  - by apply theme_toggles.
  - destruct n as [|n]; [done|].
    unfold savedTheme. rewrite getItem_toggles by done.
    apply or_else_valid. rewrite parity_theme_S. apply flip_valid.
  - destruct n as [|n]; [done|]. intros _. by apply getItem_toggles.
Qed.

Lemma theme_lifecycle_witness :
  theme (initTheme fresh_visit) = Some "dark" /\
  theme (toggles 3 (initTheme fresh_visit)) = Some "light" /\
  getItem "theme" (toggles 3 (initTheme fresh_visit)) = Some "light".
Proof.
  destruct (theme_lifecycle fresh_visit (initTheme fresh_visit) 3)
    as (Hinit & Hattr & _ & Hstore).
  - vm_compute. left.
  - reflexivity.
  - reflexivity.
  - split; [exact Hinit | split; [exact Hattr | apply Hstore; lia]].
Defined.

Lemma exec_snoc acts a s : exec (acts ++ [a]) s = perform a (exec acts s).
Proof. unfold exec. by rewrite foldl_app. Qed.

Lemma storage_perform a s k :
  localStorage (perform a s) !! k = localStorage s !! k \/
  k = "theme" /\ exists t, localStorage (perform a s) !! k = Some t /\ valid t.
Proof.
  destruct a; simpl; [by left|].
  destruct (decide (k = "theme")) as [->|Hne].
  - right. split; [done|]. exists (flip (theme s)).
    split; [apply getItem_toggleTheme | apply flip_valid].
  - left. by apply storage_toggleTheme_ne.
Qed.

Lemma storage_exec acts s k :
  localStorage (exec acts s) !! k = localStorage s !! k \/
  k = "theme" /\ exists t, localStorage (exec acts s) !! k = Some t /\ valid t.
Proof.
  induction acts as [|a acts IH] using rev_ind; [by left|].
  rewrite exec_snoc.
  destruct (storage_perform a (exec acts s) k) as [Heq | Hw]; [|by right].
  rewrite Heq. exact IH.
Qed.

Lemma settled_toggleTheme s : settled (toggleTheme s).
Proof.
  split; exists (flip (theme s)).
  - split; [apply theme_toggleTheme | apply flip_valid].
  - split; [apply getItem_toggleTheme | apply flip_valid].
Qed.

Lemma settled_initTheme s : settled s -> settled (initTheme s).
Proof.
  intros [_ (t & Ht & Hv)]. split; exists t; (split; [|done]).
  - unfold theme, initTheme; simpl. rewrite getAttribute_set, Ht.
    by rewrite or_else_valid.
  - exact Ht.
Qed.

Lemma settled_exec acts s : settled s -> settled (exec acts s).
Proof.
  intros Hs. induction acts as [|a acts IH] using rev_ind; [done|].
  rewrite exec_snoc. destruct a; simpl.
  - by apply settled_initTheme.
  - apply settled_toggleTheme.
Qed.

(** C10: whatever the attribute holds (nothing, or any string), one
    [toggleTheme] sets attribute and stored value to "light" if it held
    "dark" and to "dark" otherwise; after a toggle the theme stays valid
    under any further loads and toggles; and no run of the program stores
    anything but "light" or "dark", under the key "theme" only. *)
Theorem toggleTheme_normalizes :
  (forall s : state,
     let t := if decide (theme s = Some "dark") then "light" else "dark" in
     theme (toggleTheme s) = Some t /\ getItem "theme" (toggleTheme s) = Some t) /\
  (forall (s : state) (before after : list action),
     exists t, theme (exec (before ++ ToggleClick :: after) s) = Some t /\ valid t) /\
  (forall (s : state) (acts : list action) (k : string),
     localStorage (exec acts s) !! k = localStorage s !! k \/
     k = "theme" /\
     exists t, localStorage (exec acts s) !! k = Some t /\ valid t).
Proof.
  split; [|split].
  - intros s t. subst t.
    rewrite theme_toggleTheme, getItem_toggleTheme.
    destruct (decide (theme s = Some "dark")) as [->|Hne].
    + by rewrite flip_dark.
    + by rewrite flip_not_dark.
  - intros s before after. unfold exec. rewrite foldl_app. simpl.
    apply (settled_exec after), settled_toggleTheme.
  - intros s acts k. apply storage_exec.
Qed.

(** *** Further properties of the theme controller *)

Lemma synced_toggleTheme s : synced (toggleTheme s).
Proof.
  exists (flip (theme s)). split; [apply flip_valid|].
  split; [apply theme_toggleTheme | apply getItem_toggleTheme].
Qed.

Lemma synced_initTheme s : synced s -> synced (initTheme s).
Proof.
  intros (t & Hv & _ & Hg). exists t. split; [done|]. split; [|done].
  unfold theme, initTheme; simpl. rewrite getAttribute_set, Hg.
  by rewrite or_else_valid.
Qed.

Lemma synced_exec acts s : synced s -> synced (exec acts s).
Proof.
  intros Hs. induction acts as [|a acts IH] using rev_ind; [done|].
  rewrite exec_snoc. destruct a; simpl.
  - by apply synced_initTheme.
  - apply synced_toggleTheme.
Qed.

(** Once the user has toggled, whatever loads and toggles follow, a later
    page load (any body, the storage as it was left) shows the theme the
    page showed last. *)
Theorem theme_survives_reload (s : state) (before after : list action)
    (b : element) :
  theme (reload b (exec (before ++ ToggleClick :: after) s))
  = theme (exec (before ++ ToggleClick :: after) s).
Proof.
  assert (synced (exec (before ++ ToggleClick :: after) s))
    as (t & Hv & -> & Hg).
  { unfold exec. rewrite foldl_app. simpl.
    apply (synced_exec after), synced_toggleTheme. }
  unfold reload, theme, initTheme, getItem in *; simpl.
  rewrite getAttribute_set, Hg. by rewrite or_else_valid.
Qed.

(** Toggling twice brings a valid theme back, in the attribute and in the
    storage; and from any start, valid or not, three toggles show what one
    toggle shows. *)
Theorem toggleTheme_twice (s : state) (t : string) :
  theme s = Some t -> valid t ->
  theme (toggleTheme (toggleTheme s)) = Some t /\
  getItem "theme" (toggleTheme (toggleTheme s)) = Some t /\
  forall s' : state,
    theme (toggleTheme (toggleTheme (toggleTheme s'))) = theme (toggleTheme s').
Proof.
  assert (forall u, valid u -> flip (Some (flip (Some u))) = u) as Hinv.
  { by intros u [-> | ->]. }
  intros Ht Hv. rewrite getItem_toggleTheme, !theme_toggleTheme, Ht.
  rewrite (Hinv t Hv). do 2 (split; [done|]).
  intros s'. rewrite !theme_toggleTheme. f_equal. apply Hinv, flip_valid.
Qed.

Lemma toggleTheme_twice_witness :
  theme (toggleTheme (toggleTheme (initTheme fresh_visit))) = Some "dark" /\
  getItem "theme" (toggleTheme (toggleTheme (initTheme fresh_visit)))
  = Some "dark".
Proof.
  destruct (toggleTheme_twice (initTheme fresh_visit) "dark")
    as (Hattr & Hstore & _).
  - reflexivity.
  - by right.
  - split; [exact Hattr | exact Hstore].
Defined.

(** [initTheme] does not validate: any non-empty stored string, a theme or
    not, becomes the attribute and the storage is left as it was; the next
    toggle then repairs both, to "light" after a stored "dark" and to
    "dark" after anything else. *)
Theorem initTheme_unvalidated (s : state) (v : string) :
  getItem "theme" s = Some v -> v <> "" ->
  theme (initTheme s) = Some v /\
  localStorage (initTheme s) = localStorage s /\
  let repaired := if decide (v = "dark") then "light" else "dark" in
  theme (toggleTheme (initTheme s)) = Some repaired /\
  getItem "theme" (toggleTheme (initTheme s)) = Some repaired.
Proof.
  intros Hg Hne.
  assert (theme (initTheme s) = Some v) as Hinit.
  { unfold theme, initTheme; simpl. rewrite getAttribute_set, Hg. simpl.
    by rewrite (proj2 (String.eqb_neq v "") Hne). }
  split; [done|]. split; [done|]. simpl.
  rewrite theme_toggleTheme, getItem_toggleTheme, Hinit.
  case_decide as Hd.
  - subst v. by rewrite flip_dark.
  - rewrite flip_not_dark; [done | congruence].
Qed.

Lemma initTheme_unvalidated_witness :
  theme (initTheme (State (Element "body" ∅ ∅ ∅ 0) {["theme" := "blue"]} []))
  = Some "blue" /\
  theme (toggleTheme
           (initTheme (State (Element "body" ∅ ∅ ∅ 0) {["theme" := "blue"]} [])))
  = Some "dark".
Proof.
  destruct (initTheme_unvalidated
              (State (Element "body" ∅ ∅ ∅ 0) {["theme" := "blue"]} []) "blue")
    as (Hinit & _ & Hfix & _).
  - reflexivity.
  - discriminate.
  - split; [exact Hinit | exact Hfix].
Defined.

End ThemeFacts.

(** ** Navigation menu *)
Section NavFacts.
Import Dom Selector Nav.

Lemma navbar_open_remove_open p : navbar_open (remove_open p) = false.
Proof.
  unfold navbar_open, remove_open; simpl.
  destruct (navbar p); simpl; [apply contains_remove | done].
Qed.

Lemma navbar_open_collapse_toggle p :
  navbar_open (collapse_toggle p) = navbar_open p.
Proof. reflexivity. Qed.

Lemma documentClick_closed inNavbar p :
  navbar_open p = false -> documentClick inNavbar p = p.
Proof. unfold documentClick. intros ->. by rewrite andb_false_r. Qed.

Lemma documentClick_cases inNavbar p :
  documentClick inNavbar p = p \/ navbar_open (documentClick inNavbar p) = false.
Proof.
  unfold documentClick.
  destruct (negb _ && navbar_open p); [right | by left].
  by rewrite navbar_open_collapse_toggle, navbar_open_remove_open.
Qed.

Lemma documentKeydown_closed key p :
  navbar_open p = false -> documentKeydown key p = ([], p).
Proof. unfold documentKeydown. intros ->. by rewrite andb_false_r. Qed.

Lemma documentKeydown_cases key p :
  documentKeydown key p = ([], p) \/
  navbar_open (documentKeydown key p).2 = false.
Proof.
  unfold documentKeydown.
  destruct (String.eqb key "Escape" && navbar_open p); [right | by left].
  destruct (mobileToggle (remove_open p)); simpl.
  - by rewrite navbar_open_collapse_toggle, navbar_open_remove_open.
  - apply navbar_open_remove_open.
Qed.

Lemma resizeHandler_closed p : navbar_open p = false -> resizeHandler p = p.
Proof. unfold resizeHandler. intros ->. by destruct (768 <? innerWidth p). Qed.

Lemma resizeHandler_cases p :
  resizeHandler p = p \/ navbar_open (resizeHandler p) = false.
Proof.
  unfold resizeHandler.
  destruct (768 <? innerWidth p); [|by left].
  destruct (navbar_open p) eqn:Hopen; [right | by left].
  apply navbar_open_remove_open.
Qed.

Lemma resizeHandler_innerWidth p : innerWidth (resizeHandler p) = innerWidth p.
Proof.
  unfold resizeHandler.
  destruct (768 <? innerWidth p); [|done]. by destruct (navbar_open p).
Qed.

Lemma documentClick_idem inNavbar p :
  documentClick inNavbar (documentClick inNavbar p) = documentClick inNavbar p.
Proof.
  destruct (documentClick_cases inNavbar p) as [Heq | Hc].
  - by rewrite !Heq.
  - by apply documentClick_closed.
Qed.

Lemma documentClick_document inNavbar p :
  document (documentClick inNavbar p) = document p /\
  innerWidth (documentClick inNavbar p) = innerWidth p.
Proof. unfold documentClick. by destruct (negb _ && navbar_open p). Qed.

Lemma anchorClick_top frag p :
  frag = "" \/ frag = "page-top" ->
  anchorClick frag p = Some ([PreventDefault; ScrollTo 0], p).
Proof. by intros [-> | ->]. Qed.

Lemma css_ident_not_top frag :
  css_ident frag = true -> frag <> "page-top" ->
  String.eqb ("#" +:+ frag) "#" || String.eqb ("#" +:+ frag) "#page-top" = false.
Proof.
  intros Hid Hne. apply orb_false_intro.
  - destruct frag; [done|]. reflexivity.
  - apply String.eqb_neq. unfold String.append. intros [= ?]. done.
Qed.

Lemma first_match_from_modelled P i doc : first_match_from P i doc <> Unmodelled.
Proof.
  revert i. induction doc as [|e doc IH]; intros i; simpl; [done|].
  destruct (P e); [done | apply IH].
Qed.

Lemma first_match_from_no_error P i doc : first_match_from P i doc <> SyntaxError.
Proof.
  revert i. induction doc as [|e doc IH]; intros i; simpl; [done|].
  destruct (P e); [done | apply IH].
Qed.

(** Whether a click on the anchor closes the menu depends on the fragment
    and the document only. *)
Lemma anchorClick_shape frag doc :
  String.eqb frag "" || css_ident frag = true ->
  (forall q, document q = doc -> exists calls, anchorClick frag q = Some (calls, q)) \/
  (forall q, document q = doc -> exists calls,
     anchorClick frag q = Some (calls, if navbar_open q then remove_open q else q)).
Proof.
  intros Hm.
  destruct (decide (frag = "" \/ frag = "page-top")) as [Htop | Hnt].
  { left. intros q _. rewrite anchorClick_top by done. eauto. }
  assert (css_ident frag = true) as Hid.
  { apply orb_true_iff in Hm as [Hm | Hm]; [|done].
    apply String.eqb_eq in Hm. tauto. }
  pose proof (first_match_from_modelled (has_id frag) 0 doc) as Hfm.
  pose proof (first_match_from_no_error (has_id frag) 0 doc) as Hfe.
  destruct (first_match_from (has_id frag) 0 doc) as [i e| | |] eqn:Hq;
    [| |done|done].
  - right. intros q Hdoc. unfold anchorClick.
    rewrite css_ident_not_top by tauto.
    unfold querySelector_hash, first_match. rewrite Hid, Hdoc, Hq. eauto.
  - left. intros q Hdoc. unfold anchorClick.
    rewrite css_ident_not_top by tauto.
    unfold querySelector_hash, first_match. rewrite Hid, Hdoc, Hq. eauto.
Qed.

Lemma closed_after p : navbar_open (if navbar_open p then remove_open p else p) = false.
Proof.
  destruct (navbar_open p) eqn:Hopen; [apply navbar_open_remove_open | done].
Qed.

(** C9: each close operation (click outside the container, Escape, resize,
    click on an in-page anchor) leaves an already closed menu as it is, and
    applying it a second time leaves the page as the first application left
    it. *)
Theorem close_idempotent (c : close_op) (p : page) :
  modelled c = true ->
  exists calls p1,
    step (close_event c) p = Some (calls, p1) /\
    (navbar_open p = false -> menu p1 = menu p) /\
    exists calls', step (close_event c) p1 = Some (calls', p1).
Proof.
  intros Hm. destruct c as [| |width|frag inNavbar]; simpl.
  - do 2 eexists. split; [done|]. split.
    + intros Hc. by rewrite documentClick_closed.
    + rewrite documentClick_idem. eauto.
  - exists (documentKeydown "Escape" p).1, (documentKeydown "Escape" p).2.
    split; [by destruct (documentKeydown "Escape" p)|]. split.
    + intros Hc. by rewrite documentKeydown_closed.
    + destruct (documentKeydown_cases "Escape" p) as [Heq | Hc].
      * rewrite !Heq. simpl. rewrite Heq. eauto.
      * rewrite (documentKeydown_closed _ _ Hc). eauto.
  - do 2 eexists. split; [done|]. split.
    + intros Hc. by rewrite resizeHandler_closed.
    + set (q := Page (navbar p) (mobileToggle p) (document p) width).
      assert (innerWidth (resizeHandler q) = width) as Hw
        by apply resizeHandler_innerWidth.
      assert (forall r, innerWidth r = width ->
                Page (navbar r) (mobileToggle r) (document r) width = r) as Heta.
      { intros [nb bt d w]; simpl. by intros ->. }
      rewrite (Heta _ Hw).
      destruct (resizeHandler_cases q) as [Heq | Hc].
      * rewrite !Heq. eauto.
      * rewrite (resizeHandler_closed _ Hc). eauto.
  - simpl in Hm.
    destruct (anchorClick_shape frag (document p) Hm) as [Hkeep | Hclose].
    + destruct (Hkeep p eq_refl) as [calls ->]. simpl.
      do 2 eexists. split; [done|]. split.
      * intros Hc. by rewrite documentClick_closed.
      * destruct (Hkeep (documentClick inNavbar p)) as [calls' ->].
        { apply documentClick_document. }
        simpl. rewrite documentClick_idem. eauto.
    + destruct (Hclose p eq_refl) as [calls ->]. simpl.
      set (pa := if navbar_open p then remove_open p else p).
      assert (navbar_open pa = false) as Hpa by apply closed_after.
      rewrite (documentClick_closed _ _ Hpa).
      do 2 eexists. split; [done|]. split.
      * intros Hc. subst pa. by rewrite Hc.
      * destruct (Hclose pa) as [calls' ->].
        { subst pa. by destruct (navbar_open p). }
        simpl. rewrite Hpa. rewrite (documentClick_closed _ _ Hpa). eauto.
Qed.

Lemma close_idempotent_witness :
  exists calls p1,
    step (Keydown "Escape") (toggleClick sample_page) = Some (calls, p1) /\
    (navbar_open (toggleClick sample_page) = false ->
     menu p1 = menu (toggleClick sample_page)) /\
    exists calls', step (Keydown "Escape") p1 = Some (calls', p1).
Proof.
  apply (close_idempotent EscapeKey (toggleClick sample_page)). reflexivity.
Defined.

Lemma inconsistent_hidden p :
  navbar_open p = false -> aria_hidden p = Some "false" -> ~ consistent p.
Proof. intros Hc Hh [_ [_ H]]. specialize (H Hh). congruence. Qed.

(** C1 (the script falls short of it): the toggle button's listener keeps
    the open marker, [aria-expanded] and [aria-hidden] in agreement, but
    every close path leaves them apart.  From the consistent closed menu of
    [sample_page], opening by the toggle and then closing by an outside
    click or by Escape leaves [aria-hidden] at "false" on a closed menu;
    closing by a resize to 1024 or by an anchor click leaves both
    [aria-expanded] at "true" and [aria-hidden] at "false". *)
Theorem menu_aria_diverges :
  consistent sample_page /\
  (exists p, run [Click (OnToggle true)] sample_page = Some ([], p) /\
     navbar_open p = true /\ consistent p) /\
  (exists p, run [Click (OnToggle true); Click (Elsewhere false)] sample_page
             = Some ([], p) /\
     navbar_open p = false /\ aria_expanded p = Some "false" /\
     aria_hidden p = Some "false" /\ ~ consistent p) /\
  (exists p, run [Click (OnToggle true); Keydown "Escape"] sample_page
             = Some ([FocusToggle], p) /\
     navbar_open p = false /\ aria_expanded p = Some "false" /\
     aria_hidden p = Some "false" /\ ~ consistent p) /\
  (exists p, run [Click (OnToggle true); Resize 1024] sample_page = Some ([], p) /\
     navbar_open p = false /\ aria_expanded p = Some "true" /\
     aria_hidden p = Some "false" /\ ~ consistent p) /\
  (exists calls p,
     run [Click (OnToggle true); Click (OnAnchor "about" true)] sample_page
     = Some (calls, p) /\
     navbar_open p = false /\ aria_expanded p = Some "true" /\
     aria_hidden p = Some "false" /\ ~ consistent p).
Proof.
  split; [|split; [|split; [|split; [|split]]]].
  - split; split; intros H; vm_compute in H; congruence.
  - eexists. split; [vm_compute; reflexivity|]. split; [reflexivity|].
    split; split; intros _; reflexivity.
  - eexists. split; [vm_compute; reflexivity|].
    do 3 (split; [reflexivity|]). by apply inconsistent_hidden.
  - eexists. split; [vm_compute; reflexivity|].
    do 3 (split; [reflexivity|]). by apply inconsistent_hidden.
  - eexists. split; [vm_compute; reflexivity|].
    do 3 (split; [reflexivity|]). by apply inconsistent_hidden.
  - do 2 eexists. split; [vm_compute; reflexivity|].
    do 3 (split; [reflexivity|]). by apply inconsistent_hidden.
Qed.

(** No close path writes [aria-hidden]: whenever one of them closes a menu
    that was open and consistent, the result is inconsistent. *)
Lemma aria_hidden_remove_open p : aria_hidden (remove_open p) = aria_hidden p.
Proof. unfold aria_hidden, remove_open; simpl. by destruct (navbar p). Qed.

Lemma aria_hidden_documentClick inNavbar p :
  aria_hidden (documentClick inNavbar p) = aria_hidden p.
Proof.
  unfold documentClick. destruct (negb _ && navbar_open p); [|done].
  apply aria_hidden_remove_open.
Qed.

Lemma close_keeps_aria_hidden c p calls p1 :
  step (close_event c) p = Some (calls, p1) -> aria_hidden p1 = aria_hidden p.
Proof.
  destruct c as [| |width|frag inNavbar]; simpl.
  - intros [= <- <-]. apply aria_hidden_documentClick.
  - unfold documentKeydown.
    destruct (String.eqb "Escape" "Escape" && navbar_open p).
    + destruct (mobileToggle (remove_open p)); intros [= <- <-];
        apply aria_hidden_remove_open.
    + by intros [= <- <-].
  - intros [= <- <-]. unfold resizeHandler. simpl.
    destruct (768 <? width); [|done].
    destruct (navbar_open _); [by rewrite aria_hidden_remove_open | done].
  - unfold anchorClick.
    destruct (_ || _); simpl.
    { intros [= <- <-]. apply aria_hidden_documentClick. }
    destruct (querySelector_hash frag (document p)); simpl; [| |done|done].
    + intros [= <- <-]. rewrite aria_hidden_documentClick.
      destruct (navbar_open p); [apply aria_hidden_remove_open | done].
    + intros [= <- <-]. apply aria_hidden_documentClick.
Qed.

Lemma close_breaks_consistency c p calls p1 :
  consistent p -> navbar_open p = true ->
  step (close_event c) p = Some (calls, p1) -> navbar_open p1 = false ->
  ~ consistent p1.
Proof.
  intros [_ Hhidden] Hopen Hstep Hclosed.
  apply inconsistent_hidden; [done|].
  rewrite (close_keeps_aria_hidden _ _ _ _ Hstep). by apply Hhidden.
Qed.

(** What the toggle button's own listener guarantees. *)
Lemma toggleClick_consistent p btn nb :
  mobileToggle p = Some btn -> navbar p = Some nb -> consistent (toggleClick p).
Proof.
  intros Hb Hn. unfold toggleClick. rewrite Hb, Hn.
  unfold updateAriaAttributes, consistent, navbar_open, aria_expanded, aria_hidden.
  simpl. rewrite !getAttribute_set, contains_setAttribute.
  destruct (contains "open" (toggle "open" nb)); simpl; split; split; congruence.
Qed.

End NavFacts.

(** ** Scroll router *)
Section ScrollFacts.
Import Dom Selector Nav.

Lemma first_match_from_found P start doc i e :
  first_match_from P start doc = Found i e ->
  (start <= i)%nat /\ doc !! (i - start)%nat = Some e /\ P e = true /\
  forall j e', (j < i - start)%nat -> doc !! j = Some e' -> P e' = false.
Proof.
  revert start. induction doc as [|x doc IH]; intros start; simpl; [done|].
  destruct (P x) eqn:HP.
  - intros [= <- <-]. rewrite Nat.sub_diag. simpl.
    repeat split; [lia | done | lia].
  - intros Hf. destruct (IH _ Hf) as (Hle & Hlk & HPe & Hfirst).
    replace (i - start)%nat with (S (i - S start)) by lia. simpl.
    repeat split; [lia | done | done |].
    intros [|j] e' Hj; simpl; [by intros [= <-]|].
    apply Hfirst. lia.
Qed.

Lemma querySelector_hash_found frag doc i e :
  querySelector_hash frag doc = Found i e ->
  css_ident frag = true /\ doc !! i = Some e /\ getAttribute "id" e = Some frag.
Proof.
  unfold querySelector_hash, first_match.
  destruct (css_ident frag); [|by destruct (starts_with_digit frag)]. intros Hf.
  destruct (first_match_from_found _ _ _ _ _ Hf) as (_ & Hlk & HP & _).
  rewrite Nat.sub_0_r in Hlk. split; [done|]. split; [done|].
  by apply bool_decide_eq_true in HP.
Qed.

Lemma headerOffset_narrow w : w <= 768 -> headerOffset w = 80.
Proof. unfold headerOffset. intros H. by rewrite (proj2 (Z.leb_le _ _) H). Qed.

Lemma headerOffset_wide w : 768 < w -> headerOffset w = 0.
Proof. unfold headerOffset. intros H. by rewrite (proj2 (Z.leb_gt _ _) H). Qed.

(** Where there is an element that satisfies [P], the search finds the
    first one, at or before it. *)
Lemma first_match_from_exists P start doc j e :
  doc !! j = Some e -> P e = true ->
  exists i el, first_match_from P start doc = Found i el /\
               (start <= i <= start + j)%nat.
Proof.
  revert start j. induction doc as [|x doc IH]; intros start j; [done|].
  simpl. destruct (P x) eqn:HP.
  - intros _ _. exists start, x. split; [done | lia].
  - destruct j as [|j]; simpl.
    + intros [= ->]. congruence.
    + intros Hlk He. destruct (IH (S start) j Hlk He) as (i & el & -> & Hi).
      exists i, el. split; [done | lia].
Qed.

Lemma has_id_true ident e :
  has_id ident e = true <-> getAttribute "id" e = Some ident.
Proof. unfold has_id. apply bool_decide_eq_true. Qed.

Lemma has_id_false ident e :
  has_id ident e = false <-> getAttribute "id" e <> Some ident.
Proof. unfold has_id. apply bool_decide_eq_false. Qed.




(** Without a target the listener does nothing: the default navigation is
    not cancelled and nothing scrolls. *)
Lemma anchorClick_no_target frag p :
  frag <> "" -> frag <> "page-top" ->
  querySelector_hash frag (document p) = Null ->
  anchorClick frag p = Some ([], p).
Proof.
  intros H1 H2 Hq. unfold anchorClick.
  assert (css_ident frag = true) as Hid.
  { unfold querySelector_hash in Hq.
    by destruct (css_ident frag), (starts_with_digit frag). }
  by rewrite css_ident_not_top, Hq.
Qed.

End ScrollFacts.

(** ** Further properties of the menu and the scroll router *)
Section MenuFacts.
Import Dom Selector Nav.

Lemma contains_toggle c e : contains c (toggle c e) = negb (contains c e).
Proof.
  unfold toggle. destruct (contains c e) eqn:Hc; simpl.
  - apply contains_remove.
  - apply contains_add.
Qed.

Lemma toggleClick_open p btn nb :
  mobileToggle p = Some btn -> navbar p = Some nb ->
  navbar_open (toggleClick p) = negb (navbar_open p) /\
  aria_expanded (toggleClick p) = Some (toString (negb (navbar_open p))) /\
  aria_hidden (toggleClick p) = Some (toString (navbar_open p)).
Proof.
  intros Hb Hn. unfold toggleClick, navbar_open, aria_expanded, aria_hidden.
  rewrite Hb, Hn. unfold updateAriaAttributes. simpl.
  rewrite !getAttribute_set, contains_setAttribute, contains_toggle.
  by rewrite negb_involutive.
Qed.

(** With both elements on the page, a click on the toggle button flips the
    open marker and writes both mirrors accordingly, whatever they held
    before; a second click brings the marker back. *)
Theorem toggle_flips_and_syncs (p : page) (btn nb : element) :
  mobileToggle p = Some btn -> navbar p = Some nb ->
  navbar_open (toggleClick p) = negb (navbar_open p) /\
  aria_expanded (toggleClick p) = Some (toString (negb (navbar_open p))) /\
  aria_hidden (toggleClick p) = Some (toString (navbar_open p)) /\
  consistent (toggleClick p) /\
  navbar_open (toggleClick (toggleClick p)) = navbar_open p.
Proof.
  intros Hb Hn.
  destruct (toggleClick_open p btn nb Hb Hn) as (Ho & He & Hh).
  do 3 (split; [done|]). split.
  - by eapply toggleClick_consistent.
  - assert (exists btn' nb', mobileToggle (toggleClick p) = Some btn' /\
                             navbar (toggleClick p) = Some nb')
      as (btn' & nb' & Hb' & Hn').
    { unfold toggleClick. rewrite Hb, Hn. simpl. eauto. }
    destruct (toggleClick_open _ btn' nb' Hb' Hn') as (-> & _ & _).
    rewrite Ho. apply negb_involutive.
Qed.

Lemma toggle_flips_and_syncs_witness :
  navbar_open (toggleClick sample_page) = true /\
  aria_expanded (toggleClick sample_page) = Some "true" /\
  aria_hidden (toggleClick sample_page) = Some "false".
Proof.
  destruct (toggle_flips_and_syncs sample_page toggle_button closed_navbar)
    as (Ho & He & Hh & _).
  - reflexivity.
  - reflexivity.
  - split; [exact Ho | split; [exact He | exact Hh]].
Defined.

(** A toggle button placed outside the navigation container cannot open the
    menu: the click bubbles to the listener on [document], which takes it
    for an outside click and closes the menu again. *)
Theorem toggle_outside_navbar_never_opens (p : page) :
  exists p', step (Click (OnToggle false)) p = Some ([], p') /\
             navbar_open p' = false.
Proof.
  eexists. split; [reflexivity|].
  set (q := toggleClick p). unfold documentClick.
  assert (match navbar q with Some _ => false | None => false end = false)
    as -> by (by destruct (navbar q)).
  simpl. destruct (navbar_open q) eqn:Hq; [|done].
  by rewrite navbar_open_collapse_toggle, navbar_open_remove_open.
Qed.

Lemma anchorClick_cases frag p calls p1 :
  anchorClick frag p = Some (calls, p1) ->
  p1 = p \/ navbar_open p = true /\ p1 = remove_open p.
Proof.
  unfold anchorClick. destruct (_ || _); [intros [= _ <-]; by left|].
  destruct (querySelector_hash frag (document p)); intros [= _ <-];
    [|by left].
  destruct (navbar_open p); [by right | by left].
Qed.

(** Only the toggle button opens the menu.  Any other event (a click
    anywhere else, any key, any resize) either leaves the menu closed or
    leaves its two elements exactly as they were; on a closed menu it
    changes neither of them. *)
Theorem only_toggle_opens (ev : event) (p : page) (calls : list call) (p' : page) :
  (forall inNavbar, ev <> Click (OnToggle inNavbar)) ->
  step ev p = Some (calls, p') ->
  (navbar_open p' = false \/ menu p' = menu p) /\
  (navbar_open p = false -> menu p' = menu p).
Proof.
  intros Hev. destruct ev as [[b|frag b|b]|key|width]; simpl.
  - by destruct (Hev b).
  - destruct (anchorClick frag p) as [[calls1 p1]|] eqn:Ha; [|done]. simpl.
    intros [= _ <-].
    destruct (anchorClick_cases _ _ _ _ Ha) as [-> | [Hopen ->]].
    + split.
      * destruct (documentClick_cases b p) as [-> | ?]; [by right | by left].
      * intros Hc. by rewrite documentClick_closed.
    + rewrite documentClick_closed by apply navbar_open_remove_open.
      split; [left; apply navbar_open_remove_open | congruence].
  - intros [= _ <-]. split.
    + destruct (documentClick_cases b p) as [-> | ?]; [by right | by left].
    + intros Hc. by rewrite documentClick_closed.
  - intros [= Hk]. split.
    + destruct (documentKeydown_cases key p) as [Heq | Hc].
      * right. rewrite Heq in Hk. by injection Hk as _ <-.
      * left. by rewrite Hk in Hc.
    + intros Hc. rewrite documentKeydown_closed in Hk by done.
      by injection Hk as _ <-.
  - intros [= _ <-].
    set (q := Page (navbar p) (mobileToggle p) (document p) width). split.
    + destruct (resizeHandler_cases q) as [-> | ?]; [by right | by left].
    + intros Hc. by rewrite resizeHandler_closed.
Qed.

Lemma only_toggle_opens_witness :
  menu (documentClick true (toggleClick sample_page))
  = menu (toggleClick sample_page).
Proof.
  destruct (only_toggle_opens (Click (Elsewhere true)) (toggleClick sample_page)
              [] (documentClick true (toggleClick sample_page)))
    as [[Hclosed | Hsame] _].
  - intros inNavbar. discriminate.
  - reflexivity.
  - vm_compute in Hclosed. discriminate.
  - exact Hsame.
Defined.



(** A page without a toggle button can still close its menu: Escape and an
    outside click both take the open marker off, in the same way, and
    Escape makes no focus call. *)
Theorem missing_toggle_still_closes (p : page) :
  mobileToggle p = None ->
  exists q,
    documentKeydown "Escape" p = ([], q) /\
    documentClick false p = q /\
    navbar_open q = false /\
    mobileToggle q = None.
Proof.
  intros Hb. unfold documentKeydown, documentClick. simpl.
  assert (match navbar p with Some _ => false | None => false end = false)
    as -> by (by destruct (navbar p)).
  simpl. destruct (navbar_open p) eqn:Ho.
  - exists (remove_open p). unfold collapse_toggle, remove_open, with_toggle.
    simpl. rewrite Hb. simpl.
    split; [done|]. split; [unfold with_navbar; by rewrite Hb|].
    split; [apply navbar_open_remove_open | done].
  - by exists p.
Qed.

Lemma missing_toggle_still_closes_witness :
  exists q,
    documentKeydown "Escape" (Page (Some (add "open" closed_navbar)) None [] 500)
    = ([], q) /\
    navbar_open q = false.
Proof.
  destruct (missing_toggle_still_closes
              (Page (Some (add "open" closed_navbar)) None [] 500))
    as (q & Hkey & _ & Hclosed & _).
  - reflexivity.
  - exists q. split; [exact Hkey | exact Hclosed].
Defined.

(** The resize listener closes at widths above 768 only: a settle at 768
    or below leaves navbar and toggle as they are, open menu included; and
    when it closes, it takes off the marker and nothing else. *)
Theorem resize_breakpoint (p : page) (width : Z) :
  exists p',
    step (Resize width) p = Some ([], p') /\
    innerWidth p' = width /\
    mobileToggle p' = mobileToggle p /\
    (if decide (768 < width)
     then navbar_open p' = false /\
          navbar p' = (if navbar_open p then Dom.remove "open" <$> navbar p
                       else navbar p)
     else menu p' = menu p).
Proof.
  eexists. split; [reflexivity|].
  set (q := Page (navbar p) (mobileToggle p) (document p) width).
  assert (navbar_open q = navbar_open p) as Hq by done.
  unfold resizeHandler. simpl. case_decide as Hw.
  - rewrite (proj2 (Z.ltb_lt _ _) Hw), Hq.
    destruct (navbar_open p) eqn:Ho; simpl; [|by rewrite Hq].
    by rewrite navbar_open_remove_open.
  - assert ((768 <? width) = false) as -> by (apply Z.ltb_ge; lia). done.
Qed.

(** What an anchor click asks of the browser: the default navigation is
    cancelled exactly when the anchor points to the top or its target
    exists, every cancellation comes with a scroll, and a click that finds
    no target asks for nothing and changes nothing.  No anchor click writes
    to the toggle button. *)
Theorem anchor_click_calls (frag : string) (p : page) (calls : list call)
    (p' : page) :
  anchorClick frag p = Some (calls, p') ->
  (PreventDefault ∈ calls <->
   frag = "" \/ frag = "page-top" \/
   exists i e, querySelector_hash frag (document p) = Found i e) /\
  (calls = [] /\ p' = p \/
   exists top rest, calls = PreventDefault :: ScrollTo top :: rest) /\
  mobileToggle p' = mobileToggle p.
Proof.
  destruct (decide (frag = "" \/ frag = "page-top")) as [Htop | Hnt].
  { rewrite anchorClick_top by done. intros [= <- <-].
    split; [|split; [right; eauto | done]].
    split; [tauto | intros _; apply elem_of_cons; by left]. }
  unfold anchorClick.
  destruct (String.eqb ("#" +:+ frag) "#" || String.eqb ("#" +:+ frag) "#page-top")
    eqn:Htest.
  { exfalso. apply Hnt. apply orb_true_iff in Htest as [H | H];
      apply String.eqb_eq in H; unfold String.append in H;
      injection H as H; [by left | by right]. }
  destruct (querySelector_hash frag (document p)) as [i e| | |] eqn:Hq;
    [| |done|done]; intros [= <- <-].
  - split; [|split; [right; eauto | by destruct (navbar_open p)]].
    split; [intros _; right; right; eauto | intros _; apply elem_of_cons; by left].
  - split; [|split; [by left | done]].
    split; [by intros ?%elem_of_nil | intros [?|[?|(?&?&?)]]; first [tauto | done]].
Qed.

Lemma anchor_click_calls_witness :
  PreventDefault ∈ [PreventDefault; ScrollTo 420; FocusElement 0].
Proof.
  destruct (anchor_click_calls "about" sample_page
              [PreventDefault; ScrollTo 420; FocusElement 0] sample_page)
    as (Hiff & _ & _).
  - reflexivity.
  - apply Hiff. right. right. exists 0%nat, about_section. reflexivity.
Defined.

End MenuFacts.

(** ** Section watcher *)
Section WatcherFacts.
Import Dom Selector Watcher.

Lemma remove_idem c e : remove c (remove c e) = remove c e.
Proof. apply remove_absent, contains_remove. Qed.

Lemma clear_active_lookup navLinks doc i :
  clear_active navLinks doc !! i
  = (if bool_decide (i ∈ navLinks) then remove "active" else id) <$> doc !! i.
Proof.
  unfold clear_active. revert doc.
  induction navLinks as [|x L IH]; intros doc; simpl.
  { by destruct (doc !! i). }
  rewrite IH. destruct (decide (x = i)) as [->|Hne].
  - rewrite list_lookup_alter_eq, (bool_decide_eq_true_2 (i ∈ i :: L))
      by (apply elem_of_cons; by left).
    destruct (doc !! i) as [e|]; simpl; [|done].
    case_bool_decide; simpl; [by rewrite remove_idem | done].
  - rewrite list_lookup_alter_ne by done.
    apply (f_equal (fun g => g <$> doc !! i)).
    rewrite (bool_decide_ext (i ∈ x :: L) (i ∈ L)); [done|].
    rewrite elem_of_cons. intuition congruence.
Qed.

Lemma is_active_clear navLinks doc i :
  i ∈ navLinks -> is_active (clear_active navLinks doc) i = false.
Proof.
  intros Hi. unfold is_active.
  rewrite clear_active_lookup, bool_decide_eq_true_2 by done.
  destruct (doc !! i); simpl; [apply contains_remove | done].
Qed.

Lemma is_active_mark j doc i :
  i <> j -> is_active (mark_active j doc) i = is_active doc i.
Proof.
  intros Hne. unfold is_active, mark_active.
  by rewrite list_lookup_alter_ne.
Qed.

Lemma is_active_mark_eq j doc :
  (j < length doc)%nat -> is_active (mark_active j doc) j = true.
Proof.
  intros Hj. unfold is_active, mark_active. rewrite list_lookup_alter_eq.
  destruct (lookup_lt_is_Some_2 _ _ Hj) as [e ->]. simpl. apply contains_add.
Qed.

Lemma same_markup_refl e : same_markup e e.
Proof. by repeat split. Qed.

Lemma same_markup_trans e1 e2 e3 :
  same_markup e1 e2 -> same_markup e2 e3 -> same_markup e1 e3.
Proof.
  intros (Ht & Ha & Hc) (Ht' & Ha' & Hc'). repeat split; try congruence.
  intros c Hne. by rewrite Hc, Hc'.
Qed.

Lemma same_markup_remove e : same_markup e (remove "active" e).
Proof.
  repeat split. intros c Hne. unfold contains, remove; simpl.
  apply bool_decide_ext. rewrite elem_of_difference, elem_of_singleton. tauto.
Qed.

Lemma same_markup_add e : same_markup e (add "active" e).
Proof.
  repeat split. intros c Hne. symmetry. by apply contains_add_ne.
Qed.

Lemma same_docs_clear navLinks doc :
  Forall2 same_markup doc (clear_active navLinks doc).
Proof.
  apply Forall2_lookup. intros i. rewrite clear_active_lookup.
  destruct (doc !! i) as [e|]; simpl; constructor.
  case_bool_decide; [apply same_markup_remove | apply same_markup_refl].
Qed.

Lemma same_docs_mark j doc : Forall2 same_markup doc (mark_active j doc).
Proof.
  apply Forall2_lookup. intros i. unfold mark_active.
  destruct (decide (j = i)) as [->|Hne].
  - rewrite list_lookup_alter_eq.
    destruct (doc !! i); simpl; constructor. apply same_markup_add.
  - rewrite list_lookup_alter_ne by done.
    destruct (doc !! i); constructor. apply same_markup_refl.
Qed.

Lemma same_docs_trans d1 d2 d3 :
  Forall2 same_markup d1 d2 -> Forall2 same_markup d2 d3 ->
  Forall2 same_markup d1 d3.
Proof.
  intros H12 H23. eapply Forall2_trans; [|exact H12|exact H23].
  apply same_markup_trans.
Qed.

(** The selector engine looks at tags and attributes only, so it finds the
    same position before and after the marker classes change. *)
Lemma first_match_from_same P start d d' :
  (forall e e', same_markup e e' -> P e = P e') ->
  Forall2 same_markup d d' ->
  match first_match_from P start d, first_match_from P start d' with
  | Found i e, Found i' e' => i = i' /\ same_markup e e'
  | Null, Null => True
  | _, _ => False
  end.
Proof.
  intros HP Hdd. revert start.
  induction Hdd as [|e e' d d' He _ IH]; intros start; simpl; [done|].
  rewrite <- (HP _ _ He). destruct (P e); [done | apply IH].
Qed.

Lemma is_anchor_to_same href e e' :
  same_markup e e' -> is_anchor_to href e = is_anchor_to href e'.
Proof.
  intros (Ht & Ha & _). unfold is_anchor_to, getAttribute. by rewrite Ht, Ha.
Qed.

Lemma activeLink_same id d d' :
  Forall2 same_markup d d' ->
  match activeLink id d, activeLink id d' with
  | Found i _, Found i' _ => i = i'
  | Null, Null | SyntaxError, SyntaxError | Unmodelled, Unmodelled => True
  | _, _ => False
  end.
Proof.
  intros Hdd. unfold activeLink, first_match.
  destruct (all_ident_chars id); [|by destruct (ident_or_newline id)].
  pose proof (first_match_from_same (is_anchor_to ("#" +:+ id)) 0 d d'
                (is_anchor_to_same _) Hdd) as Hm.
  destruct (first_match_from _ 0 d), (first_match_from _ 0 d'); tauto.
Qed.

Lemma activeLink_in_range id d i e :
  activeLink id d = Found i e -> (i < length d)%nat.
Proof.
  unfold activeLink, first_match.
  destruct (all_ident_chars id); [|by destruct (ident_or_newline id)].
  intros Hf. apply first_match_from_found in Hf as (_ & Hlk & _).
  rewrite Nat.sub_0_r in Hlk. by apply lookup_lt_Some in Hlk.
Qed.

Lemma querySelectorAll_class_same c d d' :
  c <> "active" -> Forall2 same_markup d d' ->
  querySelectorAll_class c d' = querySelectorAll_class c d.
Proof.
  intros Hc Hdd. unfold querySelectorAll_class.
  rewrite <- (Forall2_length _ _ _ Hdd).
  apply List.filter_ext. intros i.
  pose proof (proj1 (Forall2_lookup _ _ _) Hdd i) as Hi.
  destruct Hi as [e e' (_ & _ & Hcls)|]; [|done].
  symmetry. by apply Hcls.
Qed.

Lemma NoDup_querySelectorAll_class c d : NoDup (querySelectorAll_class c d).
Proof.
  unfold querySelectorAll_class.
  apply NoDup_ListNoDup, List.NoDup_filter, NoDup_ListNoDup, NoDup_seq.
Qed.

Lemma filter_none {A} (f : A -> bool) l :
  (forall x, x ∈ l -> f x = false) -> List.filter f l = [].
Proof.
  induction l as [|x l IH]; intros Hf; simpl; [done|].
  rewrite Hf by (apply elem_of_cons; by left).
  apply IH. intros y Hy. apply Hf, elem_of_cons. by right.
Qed.

Lemma filter_at_most_one (f : nat -> bool) (j : nat) l :
  NoDup l -> (forall i, i ∈ l -> f i = true -> i = j) ->
  (length (List.filter f l) <= 1)%nat.
Proof.
  induction 1 as [|x l Hx Hnd IH]; intros Hf; simpl; [lia|].
  destruct (f x) eqn:Hfx.
  - rewrite filter_none; [simpl; lia|].
    intros y Hy. destruct (f y) eqn:Hfy; [|done]. exfalso.
    assert (y = j) by (apply Hf; [apply elem_of_cons; by right | done]).
    assert (x = j) by (apply Hf; [apply elem_of_cons; by left | done]).
    apply Hx. apply list_elem_of_In. congruence.
  - apply IH. intros i Hi. apply Hf, elem_of_cons. by right.
Qed.

(** One intersecting entry: the links are cleared, then the first anchor to
    the section is marked. *)
Lemma onEntry_intersecting navLinks e doc :
  NoDup navLinks -> isIntersecting e = true -> well_formed e ->
  exists doc1,
    onEntry navLinks e doc = Some doc1 /\
    Forall2 same_markup doc doc1 /\
    (active_count navLinks doc1 <= 1)%nat /\
    forall i, i ∈ navLinks ->
      (is_active doc1 i = true <-> exists a, activeLink (target_id e) doc = Found i a).
Proof.
  intros Hnd Hint Hwf. unfold onEntry. rewrite Hint.
  pose proof (activeLink_same (target_id e) doc _ (same_docs_clear navLinks doc))
    as Hsame.
  destruct (activeLink (target_id e) (clear_active navLinks doc))
    as [j a| | |] eqn:Hq.
  - destruct (activeLink (target_id e) doc) as [j' a'| | |]; [subst j'| done..].
    eexists. split; [done|].
    assert (j < length (clear_active navLinks doc))%nat as Hj
      by (by eapply activeLink_in_range).
    assert (forall i, i ∈ navLinks ->
              is_active (mark_active j (clear_active navLinks doc)) i = true
              <-> i = j) as Hiff.
    { intros i Hi. destruct (decide (i = j)) as [->|Hne].
      - by rewrite is_active_mark_eq.
      - rewrite is_active_mark, is_active_clear by done. split; congruence. }
    split; [|split].
    + eapply same_docs_trans; [apply same_docs_clear | apply same_docs_mark].
    + apply (filter_at_most_one _ j); [done|]. intros i Hi. by apply Hiff.
    + intros i Hi. rewrite (Hiff i Hi). split.
      * intros ->. eauto.
      * by intros [? [= ->]].
  - destruct (activeLink (target_id e) doc); [done| |done|done].
    eexists. split; [done|]. split; [apply same_docs_clear|]. split.
    + unfold active_count. rewrite filter_none; [simpl; lia|].
      intros i Hi. by apply is_active_clear.
    + intros i Hi. rewrite is_active_clear by done.
      split; [done | by intros [? ?]].
  - unfold activeLink in Hq. rewrite Hwf in Hq. unfold first_match in Hq.
    by apply first_match_from_no_error in Hq.
  - unfold activeLink in Hq. rewrite Hwf in Hq. unfold first_match in Hq.
    by apply first_match_from_modelled in Hq.
Qed.

Lemma callback_invariant navLinks entries doc :
  NoDup navLinks ->
  Forall well_formed entries ->
  (active_count navLinks doc <= 1)%nat \/
    Exists (fun e => isIntersecting e = true) entries ->
  exists doc',
    callback navLinks entries doc = Some doc' /\
    Forall2 same_markup doc doc' /\
    (active_count navLinks doc' <= 1)%nat.
Proof.
  intros Hnd Hwf. revert doc.
  induction Hwf as [|e entries He Hwf IH]; intros doc Hor; simpl.
  - exists doc. split; [done|]. split.
    + apply Forall2_lookup. intros i. destruct (doc !! i); constructor.
      apply same_markup_refl.
    + destruct Hor as [?|Hex]; [done | by apply Exists_nil in Hex].
  - destruct (isIntersecting e) eqn:Hint.
    + destruct (onEntry_intersecting navLinks e doc Hnd Hint He)
        as (doc1 & -> & Hsame & Hcount & _). simpl.
      destruct (IH doc1 (or_introl Hcount)) as (doc' & -> & Hsame' & Hcount').
      exists doc'. split; [done|]. split; [|done].
      by eapply same_docs_trans.
    + unfold onEntry. rewrite Hint. simpl. apply IH.
      destruct Hor as [?|Hex]; [by left | right].
      apply Exists_cons in Hex as [Hhd|?]; [congruence | done].
Qed.

(** The invariant carries through any number of callbacks. *)
Lemma callbacks_invariant navLinks batches doc :
  NoDup navLinks ->
  Forall (Forall well_formed) batches ->
  (active_count navLinks doc <= 1)%nat ->
  exists doc',
    callbacks navLinks batches doc = Some doc' /\
    (active_count navLinks doc' <= 1)%nat.
Proof.
  intros Hnd Hwf. revert doc.
  induction Hwf as [|entries batches He _ IH]; intros doc Hcount; simpl.
  { by exists doc. }
  destruct (callback_invariant navLinks entries doc Hnd He (or_introl Hcount))
    as (doc1 & -> & _ & Hcount1).
  simpl. by apply IH.
Qed.

Lemma is_active_clear_other navLinks doc i :
  i ∉ navLinks -> is_active (clear_active navLinks doc) i = is_active doc i.
Proof.
  intros Hi. unfold is_active.
  rewrite clear_active_lookup, bool_decide_eq_false_2 by done.
  by destruct (doc !! i).
Qed.

Lemma is_anchor_to_true href e :
  is_anchor_to href e = true
  <-> tagName e = "a" /\ getAttribute "href" e = Some href.
Proof.
  unfold is_anchor_to.
  by rewrite andb_true_iff, String.eqb_eq, bool_decide_eq_true.
Qed.

(** For an id of identifier characters, what the lookup returns is the
    first anchor to the section. *)
Lemma activeLink_first_anchor id doc i :
  all_ident_chars id = true ->
  (exists a, activeLink id doc = Found i a) <-> first_anchor_to ("#" +:+ id) doc i.
Proof.
  intros Hid. unfold activeLink, first_match. rewrite Hid. split.
  - intros [a Hf].
    destruct (first_match_from_found _ _ _ _ _ Hf) as (_ & Hlk & HP & Hfirst).
    rewrite Nat.sub_0_r in Hlk, Hfirst. split.
    + exists a. split; [done|]. by apply is_anchor_to_true.
    + intros j b Hj Hb Hanchor%is_anchor_to_true.
      rewrite (Hfirst j b Hj Hb) in Hanchor. discriminate.
  - intros [(a & Hlk & Hanchor) Hfirst].
    destruct (first_match_from_exists (is_anchor_to ("#" +:+ id)) 0 doc i a Hlk)
      as (i' & a' & Hf & Hi'); [by apply is_anchor_to_true|].
    destruct (first_match_from_found _ _ _ _ _ Hf) as (_ & Hlk' & HP' & _).
    rewrite Nat.sub_0_r in Hlk'.
    destruct (decide (i' = i)) as [->|Hne]; [by exists a'|].
    exfalso. apply (Hfirst i' a'); [lia | done | by apply is_anchor_to_true].
Qed.

Lemma first_anchor_to_same href d d' i :
  Forall2 same_markup d d' -> first_anchor_to href d i -> first_anchor_to href d' i.
Proof.
  intros Hdd [(a & Hlk & Ht & Hh) Hfirst]. split.
  - destruct (Forall2_lookup_l _ _ _ _ _ Hdd Hlk) as (a' & Hlk' & Hta & Haa & _).
    exists a'. split; [done|]. unfold getAttribute in *.
    by rewrite <- Hta, <- Haa.
  - intros j b' Hj Hb' [Htb Hhb].
    destruct (Forall2_lookup_r _ _ _ _ _ Hdd Hb') as (b & Hb & Htb' & Hab & _).
    apply (Hfirst j b Hj Hb). unfold getAttribute in *.
    by rewrite Htb', Hab.
Qed.

(** One intersecting entry: afterwards the marked elements are the first
    anchor to the section and what was marked outside the navigation
    links. *)
Lemma onEntry_marks navLinks e doc :
  isIntersecting e = true -> well_formed e ->
  exists doc1,
    onEntry navLinks e doc = Some doc1 /\
    forall i, is_active doc1 i = true
              <-> first_anchor_to ("#" +:+ target_id e) doc i \/
                  ((i ∉ navLinks) /\ is_active doc i = true).
Proof.
  intros Hint Hwf. unfold onEntry. rewrite Hint.
  pose proof (activeLink_same (target_id e) doc _ (same_docs_clear navLinks doc))
    as Hsame.
  pose proof (activeLink_first_anchor (target_id e) doc) as Hfirst.
  assert (forall i, is_active (clear_active navLinks doc) i = true
                    <-> (i ∉ navLinks) /\ is_active doc i = true) as Hclear.
  { intros i. destruct (decide (i ∈ navLinks)) as [Hi|Hi].
    - rewrite is_active_clear by done. split; [done | tauto].
    - rewrite is_active_clear_other by done. tauto. }
  destruct (activeLink (target_id e) (clear_active navLinks doc))
    as [j a| | |] eqn:Hq.
  - destruct (activeLink (target_id e) doc) as [j' a'| | |]; [subst j'| done..].
    eexists. split; [done|]. intros i.
    assert (j < length (clear_active navLinks doc))%nat as Hj
      by (by eapply activeLink_in_range).
    destruct (decide (i = j)) as [->|Hne].
    + rewrite is_active_mark_eq by done. split; [intros _|done].
      left. apply Hfirst; [done|]. by exists a'.
    + rewrite is_active_mark, Hclear by done. split; [tauto|].
      intros [Hanchor|?]; [|done].
      apply Hfirst in Hanchor as [? [= ?]]; [done..].
  - destruct (activeLink (target_id e) doc); [done| |done|done].
    eexists. split; [done|]. intros i. rewrite Hclear. split; [tauto|].
    intros [Hanchor|?]; [|done].
    by apply Hfirst in Hanchor as [? [= ]].
  - unfold activeLink in Hq. rewrite Hwf in Hq. unfold first_match in Hq.
    by apply first_match_from_no_error in Hq.
  - unfold activeLink in Hq. rewrite Hwf in Hq. unfold first_match in Hq.
    by apply first_match_from_modelled in Hq.
Qed.

Lemma callback_total navLinks entries doc :
  Forall well_formed entries ->
  exists doc', callback navLinks entries doc = Some doc' /\
               Forall2 same_markup doc doc'.
Proof.
  intros Hwf. revert doc.
  induction Hwf as [|e entries He Hwf IH]; intros doc; simpl.
  - exists doc. split; [done|].
    apply Forall2_lookup. intros i. destruct (doc !! i); constructor.
    apply same_markup_refl.
  - assert (exists doc1, onEntry navLinks e doc = Some doc1 /\
                         Forall2 same_markup doc doc1) as (doc1 & -> & Hsame).
    { unfold onEntry. destruct (isIntersecting e) eqn:Hint.
      - destruct (activeLink (target_id e) (clear_active navLinks doc))
          as [j a| | |] eqn:Hq.
        + eexists. split; [done|].
          eapply same_docs_trans; [apply same_docs_clear | apply same_docs_mark].
        + eexists. split; [done | apply same_docs_clear].
        + unfold activeLink in Hq. rewrite He in Hq. unfold first_match in Hq.
          by apply first_match_from_no_error in Hq.
        + unfold activeLink in Hq. rewrite He in Hq. unfold first_match in Hq.
          by apply first_match_from_modelled in Hq.
      - exists doc. split; [done|].
        apply Forall2_lookup. intros i. destruct (doc !! i); constructor.
        apply same_markup_refl. }
    simpl. destruct (IH doc1) as (doc' & -> & Hsame').
    exists doc'. split; [done|]. by eapply same_docs_trans.
Qed.




(** *** Further properties of the section watcher *)

Lemma marker_only_refl e : marker_only e e.
Proof. split; [by destruct e | done]. Qed.

Lemma marker_only_trans e1 e2 e3 :
  marker_only e1 e2 -> marker_only e2 e3 -> marker_only e1 e3.
Proof.
  intros [H12 Hc12] [H23 Hc23]. split.
  - rewrite H23 at 1. rewrite H12. reflexivity.
  - intros c Hne. by rewrite Hc23, Hc12.
Qed.

Lemma marker_only_remove e : marker_only e (remove "active" e).
Proof.
  split; [done|]. intros c Hne.
  by destruct (same_markup_remove e) as (_ & _ & ->).
Qed.

Lemma marker_only_add e : marker_only e (add "active" e).
Proof. split; [done|]. intros c Hne. by apply contains_add_ne. Qed.

Lemma marker_docs_refl doc : Forall2 marker_only doc doc.
Proof.
  apply Forall2_lookup. intros i. destruct (doc !! i); constructor.
  apply marker_only_refl.
Qed.

Lemma marker_docs_trans d1 d2 d3 :
  Forall2 marker_only d1 d2 -> Forall2 marker_only d2 d3 ->
  Forall2 marker_only d1 d3.
Proof.
  intros H12 H23. eapply Forall2_trans; [|exact H12|exact H23].
  apply marker_only_trans.
Qed.

Lemma marker_docs_clear navLinks doc :
  Forall2 marker_only doc (clear_active navLinks doc).
Proof.
  apply Forall2_lookup. intros i. rewrite clear_active_lookup.
  destruct (doc !! i) as [e|]; simpl; constructor.
  case_bool_decide; [apply marker_only_remove | apply marker_only_refl].
Qed.

Lemma marker_docs_mark j doc : Forall2 marker_only doc (mark_active j doc).
Proof.
  apply Forall2_lookup. intros i. unfold mark_active.
  destruct (decide (j = i)) as [->|Hne].
  - rewrite list_lookup_alter_eq.
    destruct (doc !! i); simpl; constructor. apply marker_only_add.
  - rewrite list_lookup_alter_ne by done.
    destruct (doc !! i); constructor. apply marker_only_refl.
Qed.

Lemma onEntry_marker navLinks e doc doc1 :
  onEntry navLinks e doc = Some doc1 -> Forall2 marker_only doc doc1.
Proof.
  unfold onEntry. destruct (isIntersecting e).
  - destruct (activeLink _ _); intros [= <-].
    + eapply marker_docs_trans; [apply marker_docs_clear | apply marker_docs_mark].
    + apply marker_docs_clear.
  - intros [= <-]. apply marker_docs_refl.
Qed.

Lemma callback_marker navLinks entries doc doc' :
  callback navLinks entries doc = Some doc' -> Forall2 marker_only doc doc'.
Proof.
  revert doc. induction entries as [|e entries IH]; intros doc; simpl.
  { intros [= <-]. apply marker_docs_refl. }
  destruct (onEntry navLinks e doc) as [doc1|] eqn:He; [|done]. simpl.
  intros Hrest.
  eapply marker_docs_trans; [by eapply onEntry_marker | by apply IH].
Qed.

Lemma marker_docs_same d d' :
  Forall2 marker_only d d' -> Forall2 same_markup d d'.
Proof.
  intros H. eapply Forall2_impl; [exact H|].
  intros e e' [He Hc]. rewrite He. repeat split; simpl.
  intros c Hne. symmetry. rewrite <- He. by apply Hc.
Qed.

Lemma callback_app navLinks pre post doc :
  callback navLinks (pre ++ post) doc
  = callback navLinks pre doc ≫= callback navLinks post.
Proof.
  revert doc. induction pre as [|e pre IH]; intros doc; simpl; [done|].
  destruct (onEntry navLinks e doc); simpl; [apply IH | done].
Qed.

Lemma callback_quiet navLinks entries doc :
  Forall (fun e => isIntersecting e = false) entries ->
  callback navLinks entries doc = Some doc.
Proof.
  induction 1 as [|e entries He _ IH]; simpl; [done|].
  unfold onEntry. by rewrite He.
Qed.

(** The watcher writes nothing but the marker class: after any callback
    the document has the same elements in the same order, each with its
    tag, attributes, style, offset and all its other classes; and a batch
    without an intersecting entry changes nothing at all, whatever ids it
    carries. *)
Theorem watcher_touches_only_marker (navLinks : list nat) (entries : list entry)
    (doc doc' : list element) :
  callback navLinks entries doc = Some doc' ->
  length doc' = length doc /\
  (forall i e', doc' !! i = Some e' ->
     exists e, doc !! i = Some e /\ tagName e' = tagName e /\
               attributes e' = attributes e /\ style e' = style e /\
               offsetTop e' = offsetTop e /\
               forall c, c <> "active" -> contains c e' = contains c e) /\
  (Forall (fun e => isIntersecting e = false) entries -> doc' = doc).
Proof.
  intros Hrun. pose proof (callback_marker _ _ _ _ Hrun) as Hm.
  split; [symmetry; by eapply Forall2_length|]. split.
  - intros i e' Hi.
    destruct (Forall2_lookup_r _ _ _ _ _ Hm Hi) as (e & He & Heq & Hc).
    exists e. split; [done|]. rewrite Heq. by repeat split.
  - intros Hq. rewrite callback_quiet in Hrun by done. congruence.
Qed.

Lemma watcher_touches_only_marker_witness :
  exists doc',
    callback [1; 2]%nat [Entry "skills" true] sample_doc = Some doc' /\
    length doc' = 3%nat.
Proof.
  eexists. split; [reflexivity|].
  by destruct (watcher_touches_only_marker [1; 2]%nat [Entry "skills" true]
                 sample_doc _ eq_refl) as [Hlen _].
Defined.

(** When several sections of one batch intersect, the last one processed
    wins: after the callback the marked navigation link is the first anchor
    to the section of the last intersecting entry, wherever that entry
    stands in the batch. *)
Theorem last_intersecting_wins (pre post : list entry) (e : entry)
    (doc doc' : list element) :
  let navLinks := querySelectorAll_class "nav-link" doc in
  isIntersecting e = true -> well_formed e ->
  Forall (fun x => isIntersecting x = false) post ->
  callback navLinks (pre ++ e :: post) doc = Some doc' ->
  forall i, i ∈ navLinks ->
    (is_active doc' i = true
     <-> exists a, activeLink (target_id e) doc = Found i a).
Proof.
  intros navLinks Hint Hwf Hpost Hrun i Hi.
  rewrite callback_app in Hrun.
  destruct (callback navLinks pre doc) as [d1|] eqn:Hpre; [|done].
  simpl in Hrun.
  destruct (onEntry_intersecting navLinks e d1
              (NoDup_querySelectorAll_class _ _) Hint Hwf)
    as (d2 & He & _ & _ & Hiff).
  rewrite He in Hrun. simpl in Hrun.
  rewrite callback_quiet in Hrun by done. injection Hrun as <-.
  rewrite (Hiff i Hi).
  pose proof (activeLink_same (target_id e) doc d1
                (marker_docs_same _ _ (callback_marker _ _ _ _ Hpre))) as Hsame.
  destruct (activeLink (target_id e) doc) as [j a| | |],
           (activeLink (target_id e) d1) as [j' a'| | |]; try done.
  subst j'. split; intros [? [= ->]]; eauto.
Qed.

Lemma last_intersecting_wins_witness :
  exists doc',
    callback [1; 2]%nat [Entry "about" true; Entry "skills" true;
                         Entry "about" false] sample_doc = Some doc' /\
    is_active doc' 2 = true /\ is_active doc' 1 = false.
Proof.
  eexists. split; [reflexivity|].
  pose proof (last_intersecting_wins [Entry "about" true] [Entry "about" false]
                (Entry "skills" true) sample_doc _ eq_refl eq_refl
                ltac:(repeat constructor) eq_refl) as Hwin.
  split.
  - apply (Hwin 2%nat).
    + apply elem_of_cons. right. apply elem_of_cons. by left.
    + eexists. reflexivity.
  - reflexivity.
Defined.

Lemma is_active_mark_keeps j doc i :
  is_active doc i = true -> is_active (mark_active j doc) i = true.
Proof.
  intros Hi. destruct (decide (i = j)) as [->|Hne].
  - apply is_active_mark_eq. unfold is_active in Hi.
    destruct (doc !! j) eqn:Hj; [|done]. by apply lookup_lt_Some in Hj.
  - by rewrite is_active_mark.
Qed.

(** A marker on an element outside the navigation links is never taken
    off again: the callback clears the navigation links only, while the
    anchor it marks is looked up in the whole document. *)
Theorem stray_marker_persists (navLinks : list nat) (entries : list entry)
    (doc doc' : list element) (i : nat) :
  i ∉ navLinks -> is_active doc i = true ->
  callback navLinks entries doc = Some doc' ->
  is_active doc' i = true.
Proof.
  intros Hi. revert doc. induction entries as [|e entries IH]; intros doc Ha.
  { by intros [= <-]. }
  simpl. destruct (onEntry navLinks e doc) as [d1|] eqn:He; [|done]. simpl.
  apply IH. unfold onEntry in He. destruct (isIntersecting e).
  - assert (is_active (clear_active navLinks doc) i = true) as Hc
      by (by rewrite is_active_clear_other).
    destruct (activeLink _ _); [| |done|done]; injection He as <-; [|done].
    by apply is_active_mark_keeps.
  - by injection He as <-.
Qed.

Lemma stray_marker_persists_witness :
  exists doc',
    callback [1; 2]%nat [Entry "page-top" true; Entry "about" true] sample_doc
    = Some doc' /\
    is_active doc' 0 = true.
Proof.
  eexists. split; [reflexivity|].
  apply (stray_marker_persists [1; 2]%nat [Entry "about" true]
           (mark_active 0 (clear_active [1; 2]%nat sample_doc)) _ 0%nat).
  - intros Hin. apply elem_of_cons in Hin as [Hin | Hin]; [discriminate|].
    apply elem_of_cons in Hin as [Hin | Hin]; [discriminate|].
    by apply elem_of_nil in Hin.
  - reflexivity.
  - reflexivity.
Defined.

End WatcherFacts.

(** ** Skip link *)
Section SkipLinkFacts.
Import SkipLink.

(** C5 (the script falls short of it): the click listener of the skip link
    dereferences [document.querySelector('#about')] without a guard.  On a
    page without such an element the listener throws a [TypeError], whatever
    else holds of the page, and the link stays in the body; that is the
    page reached by pressing Tab at the start of a page that has no
    [#about]. *)
Theorem skip_link_click_throws :
  documentKeydown "Tab" false (Page None false Body) = Page None true Link /\
  forall (linkInBody : bool) (activeElement : focus),
    linkClick (Page None linkInBody activeElement)
    = Threw "TypeError" (Page None linkInBody activeElement).
Proof. split; [reflexivity | intros; reflexivity]. Qed.

(** With the target present and unable to take focus the listener
    completes and removes the link. *)
Lemma skip_link_click_returns :
  linkClick (Page (Some false) true Link) = Returned (Page (Some false) false Body).
Proof. reflexivity. Qed.

End SkipLinkFacts.

(** ** Offline worker registration *)
Section WorkerFacts.
Import Worker.

Lemma append_cons c s t : String c s +:+ t = String c (s +:+ t).
Proof. reflexivity. Qed.

Lemma prefix_iff needle s :
  String.prefix needle s = true <-> exists post, s = needle +:+ post.
Proof.
  revert s. induction needle as [|c needle IH]; intros s; simpl.
  - split; [intros _; by exists s | by destruct s].
  - destruct s as [|c' s]; simpl.
    + split; [done | by intros [post [=]]].
    + destruct (Ascii.ascii_dec c c') as [->|Hne].
      * rewrite IH. setoid_rewrite append_cons.
        split; intros [post Hp]; exists post; congruence.
      * split; [done|]. setoid_rewrite append_cons.
        intros [post [= ? ?]]. done.
Qed.

Lemma includes_nil needle : includes needle "" = String.prefix needle "" || false.
Proof. reflexivity. Qed.

Lemma includes_cons needle c s :
  includes needle (String c s)
  = String.prefix needle (String c s) || includes needle s.
Proof. reflexivity. Qed.

(** [includes] is substring containment. *)
Lemma includes_iff needle s :
  includes needle s = true <-> exists pre post, s = pre +:+ needle +:+ post.
Proof.
  induction s as [|c s IH].
  - rewrite includes_nil, orb_false_r, prefix_iff. split.
    + intros [post ->]. by exists "", post.
    + intros ([|c pre] & post & Hs); [by exists post | done].
  - rewrite includes_cons, orb_true_iff, prefix_iff, IH. split.
    + intros [[post ->] | (pre & post & ->)].
      * by exists "", post.
      * by exists (String c pre), post.
    + intros ([|c' pre] & post & Hs).
      * left. by exists post.
      * right. exists pre, post. rewrite append_cons in Hs. congruence.
Qed.

Lemma attempts_iff env resolves :
  attempts env resolves <-> bindsLoadListener env = true.
Proof.
  unfold attempts, onLoad. destruct (bindsLoadListener env); simpl.
  - split; [done | intros _; by left].
  - split; [intros [] | done].
Qed.

(** What the guard of the script tests: registration of "/sw.js" is
    attempted at load exactly when the browser has
    [navigator.serviceWorker] and its user-agent string does not contain
    "localhost"; a rejected registration ends in one console message and
    nothing else, and without the attempt nothing happens at load. *)
Lemma worker_guard (env : environment) (resolves : bool) :
  (attempts env resolves <->
   hasServiceWorker env = true /\
   ~ exists pre post, userAgent env = pre +:+ "localhost" +:+ post) /\
  (attempts env false ->
   onLoad env false
   = [Register "/sw.js"; ConsoleLog "SW registration failed: "]) /\
  (~ attempts env resolves -> onLoad env resolves = []).
Proof.
  split; [|split].
  - rewrite attempts_iff. unfold bindsLoadListener.
    rewrite andb_true_iff, negb_true_iff, <- includes_iff.
    split; intros [Hsw Hua]; (split; [done|]).
    + rewrite Hua. discriminate.
    + by apply not_true_is_false.
  - intros Hb%attempts_iff. unfold onLoad. by rewrite Hb.
  - intros Hno. unfold onLoad.
    destruct (bindsLoadListener env) eqn:Hb; [|done].
    exfalso. by apply Hno, attempts_iff.
Qed.

(** The guard is not a test of the host, on either reading of "the host
    environment is not localhost".  Read as the host name of the page: a
    page served from localhost to an ordinary browser does register.  Read
    as the inspected string being different from "localhost": a user agent
    that merely contains the word does not register. *)
Lemma worker_guard_not_host :
  ~ (forall env resolves,
       attempts env resolves <->
       hasServiceWorker env = true /\ hostname env <> "localhost") /\
  ~ (forall env resolves,
       attempts env resolves <->
       hasServiceWorker env = true /\ userAgent env <> "localhost").
Proof.
  split; intros H.
  - destruct (proj1 (H served_from_localhost true)) as [_ Hhost].
    + apply attempts_iff. reflexivity.
    + by apply Hhost.
  - assert (attempts agent_naming_localhost true) as Hyes.
    { apply H. split; [reflexivity | discriminate]. }
    apply attempts_iff in Hyes. vm_compute in Hyes. discriminate.
Qed.

(** C6 (the script falls short of it): the guard that is to keep the
    worker off a development host reads [navigator.userAgent], which names
    the browser and not the host.  A page served from localhost to an
    ordinary browser with service workers attempts the registration of
    "/sw.js" at load, and logs a failure as it would anywhere; the host
    name has no part in the decision, whatever the environment. *)
Theorem worker_registers_on_localhost :
  hostname served_from_localhost = "localhost" /\
  hasServiceWorker served_from_localhost = true /\
  onLoad served_from_localhost true
  = [Register "/sw.js"; ConsoleLog "SW registered: "] /\
  onLoad served_from_localhost false
  = [Register "/sw.js"; ConsoleLog "SW registration failed: "] /\
  forall (sw : bool) (ua host host' : string) (resolves : bool),
    onLoad (Environment sw ua host) resolves
    = onLoad (Environment sw ua host') resolves.
Proof. repeat split. Qed.

End WorkerFacts.

(** ** Entrance animator *)
Section FadeFacts.
Import Dom Fade.

Lemma forEach_from_timer start entries k tgt :
  entries !! k = Some (Entry tgt true) ->
  Timer (Z.of_nat (start + k) * 100) tgt ∈ forEach_from start entries.
Proof.
  revert start k. induction entries as [|e entries IH]; intros start k; [done|].
  destruct k as [|k]; simpl.
  - intros [= ->]. simpl. rewrite Nat.add_0_r. apply elem_of_cons. by left.
  - intros Hk. apply elem_of_app. right.
    replace (start + S k)%nat with (S start + k)%nat by lia. by apply IH.
Qed.

Lemma forEach_from_origin start entries t :
  t ∈ forEach_from start entries ->
  exists k, entries !! k = Some (Entry (element_of t) true) /\
            delay t = Z.of_nat (start + k) * 100.
Proof.
  revert start. induction entries as [|e entries IH]; intros start; simpl.
  { by intros ?%elem_of_nil. }
  rewrite elem_of_app. intros [Hhd | Htl].
  - destruct e as [tgt []]; simpl in Hhd.
    + apply list_elem_of_singleton in Hhd as ->. exists 0%nat. simpl.
      by rewrite Nat.add_0_r.
    + by apply elem_of_nil in Hhd.
  - destruct (IH _ Htl) as (k & Hk & Hd). exists (S k). split; [done|].
    rewrite Hd. f_equal. lia.
Qed.

Lemma revealed_reveal e : revealed (reveal e).
Proof.
  unfold revealed, reveal, setStyle; simpl. split.
  - rewrite lookup_insert_ne by done. apply lookup_insert_eq.
  - apply lookup_insert_eq.
Qed.

Lemma elapse_cons ms t timers els :
  elapse ms (t :: timers) els
  = elapse ms timers
      (if delay t <=? ms then alter reveal (element_of t) els else els).
Proof. reflexivity. Qed.

(** Once revealed, an element stays revealed. *)
Lemma elapse_keeps_revealed ms timers els j e :
  els !! j = Some e -> revealed e ->
  exists e', elapse ms timers els !! j = Some e' /\ revealed e'.
Proof.
  revert els e. induction timers as [|t timers IH]; intros els e Hj He.
  { by exists e. }
  rewrite elapse_cons. destruct (delay t <=? ms); [|by eapply IH].
  destruct (decide (element_of t = j)) as [<-|Hne].
  - eapply IH; [|apply revealed_reveal].
    by rewrite list_lookup_alter_eq, Hj.
  - eapply IH; [|exact He]. by rewrite list_lookup_alter_ne.
Qed.

Lemma elapse_reveals ms timers els t e :
  t ∈ timers -> delay t <= ms -> els !! element_of t = Some e ->
  exists e', elapse ms timers els !! element_of t = Some e' /\ revealed e'.
Proof.
  revert els e. induction timers as [|x timers IH]; intros els e Ht Hd He.
  { by apply elem_of_nil in Ht. }
  rewrite elapse_cons. apply elem_of_cons in Ht as [<-|Ht].
  - rewrite (proj2 (Z.leb_le _ _) Hd).
    eapply elapse_keeps_revealed; [|apply revealed_reveal].
    by rewrite list_lookup_alter_eq, He.
  - destruct (delay x <=? ms); [|by eapply IH].
    destruct (decide (element_of x = element_of t)) as [Heq|Hne].
    + eapply elapse_keeps_revealed; [|apply revealed_reveal].
      by rewrite Heq, list_lookup_alter_eq, He.
    + eapply IH; [done..|]. by rewrite list_lookup_alter_ne.
Qed.

Lemma elapse_untouched ms timers els j :
  (forall t, t ∈ timers -> element_of t = j -> ms < delay t) ->
  elapse ms timers els !! j = els !! j.
Proof.
  revert els. induction timers as [|x timers IH]; intros els Hlate; [done|].
  rewrite elapse_cons, IH.
  - destruct (delay x <=? ms) eqn:Hd; [|done].
    apply Z.leb_le in Hd. apply list_lookup_alter_ne. intros Heq.
    specialize (Hlate x (proj2 (elem_of_cons _ _ _) (or_introl eq_refl)) Heq).
    lia.
  - intros t Ht. apply Hlate, elem_of_cons. by right.
Qed.

(** C7, as the script has it: an intersecting entry at position [i] of the
    batch, non-intersecting entries counted, sets a timer of [100 * i]
    milliseconds for its element, and only such timers are set; once that
    time has passed the element has opacity 1 and zero offset, and until
    the earliest timer set for it has run it is as it was. *)
Theorem stagger_delay (entries : list entry) (i tgt : nat)
    (fadeElements : list element) (e : element) (ms : Z) :
  entries !! i = Some (Entry tgt true) ->
  fadeElements !! tgt = Some e ->
  Timer (Z.of_nat i * 100) tgt ∈ fadeCallback entries /\
  (forall t, t ∈ fadeCallback entries ->
     exists k, entries !! k = Some (Entry (element_of t) true) /\
               delay t = Z.of_nat k * 100) /\
  (Z.of_nat i * 100 <= ms ->
   exists e', elapse ms (fadeCallback entries) fadeElements !! tgt = Some e' /\
              revealed e') /\
  ((forall k, entries !! k = Some (Entry tgt true) -> ms < Z.of_nat k * 100) ->
   elapse ms (fadeCallback entries) fadeElements !! tgt = Some e).
Proof.
  intros Hi He.
  assert (Timer (Z.of_nat i * 100) tgt ∈ fadeCallback entries) as Hin
    by apply (forEach_from_timer 0 _ _ _ Hi).
  split; [done|]. split; [|split].
  - intros t Ht. by apply (forEach_from_origin 0).
  - intros Hms. by apply (elapse_reveals ms _ _ _ e Hin).
  - intros Hlate. rewrite elapse_untouched; [done|].
    intros t Ht Htgt.
    destruct (forEach_from_origin 0 _ _ Ht) as (k & Hk & ->).
    rewrite Htgt in Hk. by apply Hlate.
Qed.

Lemma stagger_delay_witness :
  Timer 200 7 ∈ fadeCallback [Entry 3 false; Entry 5 true; Entry 7 true] /\
  exists e',
    elapse 250 (fadeCallback [Entry 3 false; Entry 5 true; Entry 7 true])
           (replicate 8 (arm (Element "div" ∅ ∅ ∅ 0))) !! 7%nat = Some e' /\
    revealed e'.
Proof.
  destruct (stagger_delay [Entry 3 false; Entry 5 true; Entry 7 true] 2 7
              (replicate 8 (arm (Element "div" ∅ ∅ ∅ 0)))
              (arm (Element "div" ∅ ∅ ∅ 0)) 250)
    as (Hset & _ & Hshown & _).
  - reflexivity.
  - reflexivity.
  - split; [exact Hset | apply Hshown; lia].
Defined.

(** C7 as worded, with the index taken among the intersecting entries only,
    fails as soon as a non-intersecting entry precedes an intersecting one:
    the second entry of the batch waits 100ms, not 0ms. *)
Lemma stagger_delay_counterexample :
  ~ (forall entries : list entry,
       fadeCallback entries = schedule_by_intersecting_rank entries).
Proof.
  intros H. specialize (H [Entry 0 false; Entry 1 true]). discriminate.
Qed.

(** *** Further properties of the entrance animator *)

Lemma reveal_revealed e : revealed e -> reveal e = e.
Proof.
  intros [Ho Ht]. destruct e as [tag attrs cls st off].
  unfold reveal, setStyle; simpl in *. f_equal.
  rewrite (insert_id st "opacity" "1" Ho). by apply insert_id.
Qed.

Lemma reveal_idem e : reveal (reveal e) = reveal e.
Proof. apply reveal_revealed, revealed_reveal. Qed.

Lemma elapse_lookup ms timers els j :
  elapse ms timers els !! j
  = (if fired ms timers j then reveal else id) <$> els !! j.
Proof.
  revert els. induction timers as [|t timers IH]; intros els.
  { simpl. by destruct (els !! j). }
  rewrite elapse_cons, IH. unfold fired; simpl; fold (fired ms timers j).
  destruct (delay t <=? ms); simpl; [|done].
  destruct (Nat.eqb_spec (element_of t) j) as [->|Hne]; simpl.
  - rewrite list_lookup_alter_eq. destruct (els !! j); simpl; [|done].
    destruct (fired ms timers j); simpl; [by rewrite reveal_idem | done].
  - by rewrite list_lookup_alter_ne.
Qed.

Lemma fired_mono ms ms' timers j :
  ms <= ms' -> fired ms timers j = true -> fired ms' timers j = true.
Proof.
  intros Hle. unfold fired. rewrite !existsb_exists.
  intros (t & Ht & Hc). exists t. split; [done|].
  apply andb_true_iff in Hc as [Hd%Z.leb_le Hj].
  apply andb_true_iff. split; [apply Z.leb_le; lia | done].
Qed.

(** The reveal is one-shot: revealing a revealed element changes nothing,
    so letting the timers of a batch run a second time over the elements
    they have already revealed leaves every element as it is. *)
Theorem reveal_one_shot (ms : Z) (timers : list timer) (els : list element) :
  (forall e, revealed e -> reveal e = e) /\
  elapse ms timers (elapse ms timers els) = elapse ms timers els.
Proof.
  split; [apply reveal_revealed|].
  apply list_eq. intros j. rewrite !elapse_lookup.
  destruct (els !! j); simpl; [|done].
  destruct (fired ms timers j); simpl; [by rewrite reveal_idem | done].
Qed.

(** The reveal is not reversible: an element that is revealed at some time
    after the callback is revealed at every later time. *)
Theorem reveal_never_reverts (ms ms' : Z) (timers : list timer)
    (els : list element) (j : nat) (e : element) :
  ms <= ms' ->
  elapse ms timers els !! j = Some e -> revealed e ->
  exists e', elapse ms' timers els !! j = Some e' /\ revealed e'.
Proof.
  intros Hle. rewrite !elapse_lookup.
  destruct (els !! j) as [x|]; simpl; [|done].
  destruct (fired ms' timers j) eqn:Hlate.
  - intros _ _. eexists. split; [done | apply revealed_reveal].
  - destruct (fired ms timers j) eqn:Hearly.
    + by rewrite (fired_mono ms ms' timers j Hle Hearly) in Hlate.
    + intros [= <-] Hr. by exists x.
Qed.

Lemma reveal_never_reverts_witness :
  exists e',
    elapse 5000 (fadeCallback [Entry 0 true]) [arm (Element "div" ∅ ∅ ∅ 0)]
      !! 0%nat = Some e' /\
    revealed e'.
Proof.
  apply (reveal_never_reverts 0 5000 (fadeCallback [Entry 0 true])
           [arm (Element "div" ∅ ∅ ∅ 0)] 0
           (reveal (arm (Element "div" ∅ ∅ ∅ 0)))).
  - lia.
  - reflexivity.
  - apply revealed_reveal.
Defined.

Lemma forEach_from_bounds start entries t :
  t ∈ forEach_from start entries ->
  Z.of_nat start * 100 <= delay t < Z.of_nat (start + length entries) * 100.
Proof.
  intros Ht. destruct (forEach_from_origin _ _ _ Ht) as (k & Hk & ->).
  apply lookup_lt_Some in Hk. lia.
Qed.

Lemma forEach_from_sorted start entries :
  StronglySorted (fun a b => delay a < delay b) (forEach_from start entries).
Proof.
  revert start. induction entries as [|e entries IH]; intros start; simpl.
  { constructor. }
  destruct (isIntersecting e); simpl; [|apply IH].
  constructor; [apply IH|]. apply Forall_forall. intros t Ht. simpl.
  apply forEach_from_bounds in Ht. lia.
Qed.

Lemma forEach_from_length start entries :
  length (forEach_from start entries)
  = length (List.filter isIntersecting entries).
Proof.
  revert start. induction entries as [|e entries IH]; intros start; simpl.
  { done. }
  destruct (isIntersecting e); simpl; by rewrite IH.
Qed.

(** The callback sets one timer per intersecting entry and none otherwise;
    the delays grow strictly along the batch, so the elements are revealed
    in batch order, and each delay is a multiple of 100ms below 100ms times
    the size of the batch. *)
Theorem fade_timers_staggered (entries : list entry) :
  length (fadeCallback entries) = length (List.filter isIntersecting entries) /\
  StronglySorted (fun a b => delay a < delay b) (fadeCallback entries) /\
  Forall (fun t => exists k : nat,
            delay t = Z.of_nat k * 100 /\ (k < length entries)%nat)
         (fadeCallback entries).
Proof.
  split; [apply forEach_from_length|]. split; [apply forEach_from_sorted|].
  apply Forall_forall. intros t Ht.
  destruct (forEach_from_origin 0 _ _ Ht) as (k & Hk & Hd).
  exists k. split; [done | by apply lookup_lt_Some in Hk].
Qed.

(** The animator writes two style properties of the targeted elements and
    nothing else: an element no intersecting entry of the batch points to
    is left as it is, and a revealed element keeps its tag, attributes,
    classes, offset and every other style property. *)
Theorem fade_touches_only_targets (entries : list entry) (ms : Z)
    (els : list element) (j : nat) (e' : element) :
  elapse ms (fadeCallback entries) els !! j = Some e' ->
  exists e,
    els !! j = Some e /\
    tagName e' = tagName e /\ attributes e' = attributes e /\
    classList e' = classList e /\ offsetTop e' = offsetTop e /\
    (forall prop, prop <> "opacity" -> prop <> "transform" ->
                  style e' !! prop = style e !! prop) /\
    ((forall k, entries !! k <> Some (Entry j true)) -> e' = e).
Proof.
  rewrite elapse_lookup. destruct (els !! j) as [e|]; simpl; [|done].
  intros [= <-]. exists e. split; [done|].
  destruct (fired ms (fadeCallback entries) j) eqn:Hf.
  - repeat split.
    + intros prop H1 H2. unfold reveal, setStyle; simpl.
      by rewrite !lookup_insert_ne.
    + intros Hnone. exfalso. unfold fired in Hf.
      apply existsb_exists in Hf as (t & Ht & Hc).
      apply andb_true_iff in Hc as [_ Hj%Nat.eqb_eq].
      apply list_elem_of_In in Ht.
      destruct (forEach_from_origin 0 _ _ Ht) as (k & Hk & _).
      rewrite Hj in Hk. by apply (Hnone k).
  - by repeat split.
Qed.

Lemma fade_touches_only_targets_witness :
  exists e,
    [arm (Element "div" ∅ ∅ ∅ 0); arm (Element "div" ∅ ∅ ∅ 40)] !! 1%nat
    = Some e /\
    arm (Element "div" ∅ ∅ ∅ 40) = e.
Proof.
  destruct (fade_touches_only_targets [Entry 0 true; Entry 1 false] 1000
              [arm (Element "div" ∅ ∅ ∅ 0); arm (Element "div" ∅ ∅ ∅ 40)] 1
              (arm (Element "div" ∅ ∅ ∅ 40)) eq_refl)
    as (e & He & _ & _ & _ & _ & _ & Hsame).
  exists e. split; [exact He|]. apply Hsame.
  intros [|[|k]]; discriminate.
Defined.

End FadeFacts.

(** ** Timer delays *)
Section TimerFacts.
Import Timers.

Lemma timerDelay_small w : 0 <= w < 2147483648 -> timerDelay w = w.
Proof.
  intros Hw. unfold timerDelay, toInt32. rewrite Z.mod_small by lia. lia.
Qed.

Lemma timerDelay_nonneg w : 0 <= timerDelay w.
Proof. unfold timerDelay. lia. Qed.

(** From -2^31 on the delay is never more than what was asked for. *)
Lemma timerDelay_le w : -2147483648 <= w -> timerDelay w <= Z.max 0 w.
Proof.
  intros Hw. unfold timerDelay, toInt32.
  pose proof (Z.mod_le (w + 2147483648) 4294967296). lia.
Qed.

(** At 2^31 the delay wraps to a negative number and counts as zero. *)
Lemma timerDelay_wraps : timerDelay 2147483648 = 0.
Proof. reflexivity. Qed.

End TimerFacts.

(** ** Debounce *)
Section DebounceFacts.
Import Debounce.
Context {A : Type}.
Implicit Types (s : state A) (a : A).

Lemma clearTimeout_length tid (timers : list (timer A)) :
  (length (clearTimeout tid timers) <= length timers)%nat.
Proof. destruct tid; simpl; [apply List.filter_length_le | done]. Qed.

Lemma next_due_elem now (timers : list (timer A)) t :
  next_due now timers = Some t -> t ∈ timers /\ due t <= now.
Proof.
  induction timers as [|x timers IH]; simpl; [done|].
  destruct (next_due now timers) as [t'|].
  - destruct (_ && _) eqn:Hc; intros [= <-].
    + apply andb_true_iff in Hc as [Hc%Z.leb_le _].
      split; [apply elem_of_cons; by left | done].
    + destruct (IH eq_refl). split; [apply elem_of_cons; by right | done].
  - destruct (due x <=? now) eqn:Hc; intros [= <-].
    apply Z.leb_le in Hc. split; [apply elem_of_cons; by left | done].
Qed.

Lemma next_due_none now (timers : list (timer A)) :
  next_due now timers = None <-> forall t, t ∈ timers -> now < due t.
Proof.
  induction timers as [|x timers IH]; simpl.
  { split; [by intros _ t ?%elem_of_nil | done]. }
  destruct (next_due now timers) as [t'|].
  - split; [by destruct (_ && _)|]. intros Hall.
    assert (Some t' = None) as [=]. apply IH. intros t Ht.
    apply Hall, elem_of_cons. by right.
  - destruct (due x <=? now) eqn:Hc.
    + split; [done|]. intros Hall. apply Z.leb_le in Hc.
      specialize (Hall x (proj2 (elem_of_cons _ _ _) (or_introl eq_refl))). lia.
    + split; [|done]. intros _ t [->|Ht]%elem_of_cons.
      * by apply Z.leb_gt.
      * by apply IH.
Qed.

Lemma clearTimeout_drops t (timers : list (timer A)) :
  t ∈ timers ->
  (length (clearTimeout (Some (id t)) timers) < length timers)%nat.
Proof.
  induction timers as [|x timers IH]; simpl.
  { by intros ?%elem_of_nil. }
  intros [->|Ht]%elem_of_cons.
  - rewrite Nat.eqb_refl. simpl.
    pose proof (List.filter_length_le (fun t => negb (id t =? id x)%nat) timers).
    lia.
  - specialize (IH Ht). simpl in IH.
    destruct (negb (id x =? id t)%nat); simpl; [lia|].
    pose proof (List.filter_length_le (fun u => negb (id u =? id t)%nat) timers).
    lia.
Qed.

Lemma fire_pending t s :
  t ∈ pending s -> (length (pending (fire t s)) < length (pending s))%nat.
Proof.
  intros Ht.
  pose proof (clearTimeout_length (timeout s)
                (clearTimeout (Some (id t)) (pending s))) as Hle.
  pose proof (clearTimeout_drops t (pending s) Ht) as Hlt.
  unfold fire, later. cbn [pending timeout]. lia.
Qed.

(** The rounds allotted to the event loop are enough: after [advance] no
    pending timer is due. *)
Lemma advance_rounds_complete rounds now s :
  (length (pending s) <= rounds)%nat ->
  forall t, t ∈ pending (advance_rounds rounds now s) -> now < due t.
Proof.
  revert s. induction rounds as [|n IH]; intros s Hlen; simpl.
  - destruct (pending s); [by intros t ?%elem_of_nil | simpl in Hlen; lia].
  - destruct (next_due now (pending s)) as [t|] eqn:Hnext.
    + apply IH. apply next_due_elem in Hnext as [Ht _].
      pose proof (fire_pending t s Ht). lia.
    + by apply next_due_none.
Qed.

Lemma advance_complete now s t : t ∈ pending (advance now s) -> now < due t.
Proof. by apply advance_rounds_complete. Qed.

Lemma advance_armed_early wait s t a now :
  armed wait s t a -> now < t + wait -> advance now s = s.
Proof.
  intros (i & _ & Hp & _) Hnow. unfold advance. rewrite Hp. simpl.
  by rewrite Hp; simpl; rewrite (proj2 (Z.leb_gt _ _) Hnow).
Qed.

Lemma advance_armed_late wait s t a now :
  armed wait s t a -> t + wait <= now ->
  invoked (advance now s) = [(t + wait, a)] /\ pending (advance now s) = [].
Proof.
  intros (i & Ht & Hp & Hi) Hnow. unfold advance. rewrite Hp. simpl.
  rewrite Hp; simpl. rewrite (proj2 (Z.leb_le _ _) Hnow).
  unfold fire, later; simpl. rewrite Hp, Hi, Ht. simpl.
  by rewrite Nat.eqb_refl.
Qed.

Lemma executedFunction_armed wait s t a now a' :
  0 < wait < 2147483648 -> armed wait s t a ->
  armed wait (executedFunction wait now a' s) now a'.
Proof.
  intros Hw (i & Ht & Hp & Hi). exists (nextId s).
  unfold executedFunction; simpl. rewrite Ht, Hp, Hi. simpl.
  rewrite Nat.eqb_refl. simpl. by rewrite timerDelay_small by lia.
Qed.

Lemma first_call_armed wait now a :
  0 < wait < 2147483648 ->
  armed wait (executedFunction wait now a (advance now initial)) now a.
Proof.
  intros Hw. exists 1%nat. unfold executedFunction, advance; simpl.
  by rewrite timerDelay_small by lia.
Qed.

Lemma run_armed wait calls s t a :
  0 < wait < 2147483648 -> armed wait s t a -> rapid wait t calls ->
  exists t' a', last ((t, a) :: calls) = Some (t', a') /\
                armed wait (run wait calls s) t' a'.
Proof.
  intros Hw. revert s t a.
  induction calls as [|[t1 a1] calls IH]; intros s t a Hs Hrapid.
  { by exists t, a. }
  destruct Hrapid as [Hgap Hrapid]. simpl.
  rewrite (advance_armed_early wait s t a) by (done || lia).
  apply (IH _ t1 a1); [|done].
  by eapply executedFunction_armed.
Qed.


End DebounceFacts.



(** ** Scroll effects *)
Section ScrollEffectsFacts.
Import Dom ScrollEffects.

Lemma running_animate e : running (animate e).
Proof.
  unfold running, animate.
  assert (contains "skill-level"
            (setStyle "animationPlayState" "running"
               (setStyle "animationDelay" "0s" e))
          = contains "skill-level" e) as -> by done.
  destruct (contains "skill-level" e) eqn:Hs; unfold setStyle; simpl.
  - rewrite !lookup_insert_ne by done. rewrite lookup_insert_eq.
    rewrite lookup_insert_ne by done. rewrite !lookup_insert_eq.
    by repeat split.
  - rewrite lookup_insert_ne by done. rewrite !lookup_insert_eq.
    repeat split. unfold contains in *. simpl. congruence.
Qed.

Lemma animate_running e : running e -> animate e = e.
Proof.
  intros (Hd & Hp & Ht). destruct e as [tag attrs cls st off].
  unfold animate, setStyle, contains in *; simpl in *.
  rewrite (insert_id st "animationDelay" "0s" Hd).
  rewrite (insert_id st "animationPlayState" "running" Hp).
  destruct (bool_decide ("skill-level" ∈ cls)); [|done].
  by rewrite (insert_id st "transform" "scaleX(1)" (Ht eq_refl)).
Qed.

Lemma animate_idem e : animate (animate e) = animate e.
Proof. apply animate_running, running_animate. Qed.

Lemma scrollCallback_cons e entries els :
  scrollCallback (e :: entries) els = scrollCallback entries (onEntry e els).
Proof. reflexivity. Qed.

Lemma scrollCallback_lookup entries els j :
  scrollCallback entries els !! j
  = (if hit entries j then animate else id) <$> els !! j.
Proof.
  revert els. induction entries as [|e entries IH]; intros els.
  { simpl. by destruct (els !! j). }
  rewrite scrollCallback_cons, IH. unfold hit, onEntry; simpl;
    fold (hit entries j).
  destruct (Fade.isIntersecting e); simpl; [|done].
  destruct (Nat.eqb_spec (Fade.target e) j) as [->|Hne]; simpl.
  - rewrite list_lookup_alter_eq. destruct (els !! j); simpl; [|done].
    destruct (hit entries j); simpl; [by rewrite animate_idem | done].
  - by rewrite list_lookup_alter_ne.
Qed.

(** The effect is one-shot: starting the animation of an element whose
    animation is running changes nothing, so a batch delivered a second
    time leaves every element as the first delivery left it. *)
Theorem scroll_effect_one_shot (entries : list entry) (els : list element) :
  (forall e, running e -> animate e = e) /\
  scrollCallback entries (scrollCallback entries els)
  = scrollCallback entries els.
Proof.
  split; [apply animate_running|].
  apply list_eq. intros j. rewrite !scrollCallback_lookup.
  destruct (els !! j); simpl; [|done].
  destruct (hit entries j); simpl; [by rewrite animate_idem | done].
Qed.

Lemma animate_fields e :
  tagName (animate e) = tagName e /\ attributes (animate e) = attributes e /\
  classList (animate e) = classList e /\ offsetTop (animate e) = offsetTop e.
Proof. unfold animate. by destruct (contains "skill-level" _). Qed.

Lemma animate_style_other e prop :
  prop <> "animationDelay" -> prop <> "animationPlayState" ->
  prop <> "transform" -> style (animate e) !! prop = style e !! prop.
Proof.
  intros H1 H2 H3. unfold animate.
  destruct (contains "skill-level" _); unfold setStyle; simpl;
    by rewrite !lookup_insert_ne.
Qed.

Lemma animate_transform e :
  contains "skill-level" e = false ->
  style (animate e) !! "transform" = style e !! "transform".
Proof.
  intros Hc. unfold animate.
  assert (contains "skill-level"
            (setStyle "animationPlayState" "running"
               (setStyle "animationDelay" "0s" e))
          = contains "skill-level" e) as -> by done.
  rewrite Hc. unfold setStyle; simpl. by rewrite !lookup_insert_ne.
Qed.

(** What the callback does to an element and what it leaves alone: an
    element some intersecting entry points to has its animation started
    (no delay, running, and for a skill bar the full horizontal scale);
    any other element is untouched.  Tag, attributes, classes and offset
    never change, nor any other style property, and the transform of an
    element that is not a skill bar is never written. *)
Theorem scroll_effect_scope (entries : list entry) (els : list element)
    (j : nat) (e' : element) :
  scrollCallback entries els !! j = Some e' ->
  exists e,
    els !! j = Some e /\
    tagName e' = tagName e /\ attributes e' = attributes e /\
    classList e' = classList e /\ offsetTop e' = offsetTop e /\
    (forall prop, prop <> "animationDelay" -> prop <> "animationPlayState" ->
                  prop <> "transform" -> style e' !! prop = style e !! prop) /\
    (contains "skill-level" e = false ->
     style e' !! "transform" = style e !! "transform") /\
    (if hit entries j then running e' else e' = e).
Proof.
  rewrite scrollCallback_lookup. destruct (els !! j) as [e|]; simpl; [|done].
  intros [= <-]. exists e. split; [done|].
  destruct (hit entries j); simpl; [|by repeat split].
  destruct (animate_fields e) as (Ht & Ha & Hc & Ho).
  do 4 (split; [done|]).
  split; [intros prop; apply animate_style_other|].
  split; [apply animate_transform | apply running_animate].
Qed.

Lemma scroll_effect_scope_witness :
  exists e,
    [Element "div" ∅ {["skill-level"]} ∅ 0] !! 0%nat = Some e /\
    running (animate (Element "div" ∅ {["skill-level"]} ∅ 0)).
Proof.
  destruct (scroll_effect_scope [Fade.Entry 0 true]
              [Element "div" ∅ {["skill-level"]} ∅ 0] 0
              (animate (Element "div" ∅ {["skill-level"]} ∅ 0)) eq_refl)
    as (e & He & _ & _ & _ & _ & _ & _ & Hrun).
  exists e. split; [exact He | exact Hrun].
Defined.

End ScrollEffectsFacts.

(** ** Further properties of debounce *)
Section DebounceMoreFacts.
Import Debounce.
Context {A : Type}.
Implicit Types (s : state A) (a : A).

(** A burst of any length, each call less than [wait] after the one before,
    runs the wrapped function once: [wait] after the last call of the
    burst, with the arguments of that call.  The quiet period is one that
    [setTimeout] takes as it stands, below 2^31 ms. *)
Theorem debounce_burst (wait t now t' : Z) (a a' : A) (calls : list (Z * A)) :
  0 < wait < 2147483648 -> rapid wait t calls ->
  last ((t, a) :: calls) = Some (t', a') -> t' <= now ->
  invoked (advance now (run wait ((t, a) :: calls) initial))
  = (if decide (t' + wait <= now) then [(t' + wait, a')] else []).
Proof.
  intros Hw Hrapid Hlast Hnow. simpl.
  destruct (run_armed wait calls
              (executedFunction wait t a (advance t initial)) t a Hw)
    as (t1 & a1 & Hlast1 & Harmed).
  { by apply first_call_armed. }
  { done. }
  rewrite Hlast in Hlast1. injection Hlast1 as <- <-.
  case_decide as Hlate.
  - by apply (advance_armed_late wait _ t' a').
  - rewrite (advance_armed_early wait _ t' a') by (done || lia).
    by destruct Harmed as (i & _ & _ & Hnone).
Qed.

Lemma clearTimeout_nil tid : clearTimeout (A := A) tid [] = [].
Proof. by destruct tid. Qed.

Lemma clearTimeout_single (tm : timer A) : clearTimeout (Some (id tm)) [tm] = [].
Proof. simpl. by rewrite Nat.eqb_refl. Qed.

Lemma single_timer_elem s tm :
  single_timer s -> tm ∈ pending s ->
  pending s = [tm] /\ timeout s = Some (id tm).
Proof.
  intros [Hnil | (tm' & Hp & Ht)] Hin.
  - rewrite Hnil in Hin. by apply elem_of_nil in Hin.
  - rewrite Hp in Hin. apply list_elem_of_singleton in Hin as ->. done.
Qed.

Lemma accounted_fire s tm passed :
  accounted s passed -> tm ∈ pending s -> accounted (fire tm s) passed.
Proof.
  intros [Hs Hsub] Hin. destruct (single_timer_elem s tm Hs Hin) as [Hp Ht].
  unfold fire, later. cbn [pending timeout invoked].
  rewrite Hp, clearTimeout_single, clearTimeout_nil.
  split; [by left|]. cbn [pending invoked].
  rewrite Hp in Hsub. simpl in Hsub.
  by rewrite fmap_app, app_nil_r.
Qed.

Lemma accounted_advance_rounds rounds now s passed :
  accounted s passed -> accounted (advance_rounds rounds now s) passed.
Proof.
  revert s. induction rounds as [|n IH]; intros s Hs; simpl; [done|].
  destruct (next_due now (pending s)) as [tm|] eqn:Hnext; [|done].
  apply IH, accounted_fire; [done|]. by apply next_due_elem in Hnext as [? _].
Qed.

Lemma accounted_executedFunction wait now a s passed :
  accounted s passed ->
  accounted (executedFunction wait now a s) (passed ++ [a]).
Proof.
  intros [Hs Hsub]. unfold executedFunction. cbn [id].
  assert (clearTimeout (timeout s) (pending s) = []) as Hclear.
  { destruct Hs as [-> | (tm & -> & ->)];
      [apply clearTimeout_nil | apply clearTimeout_single]. }
  rewrite Hclear. split.
  - right. eexists. by split.
  - cbn [pending invoked]. simpl. apply sublist_app; [|done].
    etrans; [|exact Hsub]. by apply sublist_inserts_r.
Qed.

Lemma accounted_run wait calls s passed :
  accounted s passed ->
  accounted (run wait calls s) (passed ++ (snd <$> calls)).
Proof.
  revert s passed. induction calls as [|[t a] calls IH]; intros s passed Hs.
  { simpl. by rewrite app_nil_r. }
  simpl. rewrite cons_middle, app_assoc. apply IH.
  by apply accounted_executedFunction, accounted_advance_rounds.
Qed.

(** Whatever the times of the calls and whatever the quiet period, the
    wrapper never holds more than one timer, never runs the wrapped
    function more often than it was called, and passes on only arguments
    it was given, in the order of the calls. *)
Theorem debounce_never_more (wait now : Z) (calls : list (Z * A)) :
  let s := advance now (run wait calls initial) in
  (length (pending s) <= 1)%nat /\
  (snd <$> invoked s) `sublist_of` (snd <$> calls) /\
  (length (invoked s) + length (pending s) <= length calls)%nat.
Proof.
  intros s.
  assert (accounted s (snd <$> calls)) as [Hsingle Hsub].
  { apply accounted_advance_rounds.
    apply (accounted_run wait calls initial []).
    split; [by left | simpl; apply sublist_nil_l]. }
  split; [|split].
  - destruct Hsingle as [-> | (tm & -> & _)]; simpl; lia.
  - etrans; [|exact Hsub]. by apply sublist_inserts_r.
  - apply sublist_length in Hsub.
    rewrite length_app, !length_fmap in Hsub. lia.
Qed.

Lemma advance_idle now s log : idle s log -> advance now s = s.
Proof. intros [Hp _]. unfold advance. by rewrite Hp. Qed.

Lemma executedFunction_idle wait now a s log :
  idle s log ->
  exists i, timeout (executedFunction wait now a s) = Some i /\
            pending (executedFunction wait now a s)
            = [Timer i (now + Timers.timerDelay wait) a] /\
            invoked (executedFunction wait now a s) = log.
Proof.
  intros [Hp Hi]. exists (nextId s). unfold executedFunction.
  cbn [timeout pending invoked id]. by rewrite Hp, clearTimeout_nil, Hi.
Qed.

Lemma advance_one_due now s i t a log :
  timeout s = Some i -> pending s = [Timer i t a] -> invoked s = log ->
  t <= now -> idle (advance now s) (log ++ [(t, a)]).
Proof.
  intros Ht Hp Hi Hnow. unfold advance. rewrite Hp. simpl.
  rewrite Hp. simpl. rewrite (proj2 (Z.leb_le _ _) Hnow).
  unfold fire, later, idle. cbn [pending timeout invoked].
  rewrite Hp, Ht, Hi. simpl. by rewrite Nat.eqb_refl.
Qed.

Lemma run_spaced wait calls s t a log final :
  idle s log -> spaced wait t calls ->
  last ((t, a) :: calls) = Some final ->
  exists i,
    timeout (run wait calls (executedFunction wait t a s)) = Some i /\
    pending (run wait calls (executedFunction wait t a s))
    = [Timer i (final.1 + Timers.timerDelay wait) final.2] /\
    (invoked (run wait calls (executedFunction wait t a s))
       ++ [delayed wait final])%list
    = (log ++ (delayed wait <$> (t, a) :: calls))%list.
Proof.
  revert s t a log. induction calls as [|[t1 a1] calls IH];
    intros s t a log Hs Hsp Hlast.
  - injection Hlast as <-. cbn [run].
    destruct (executedFunction_idle wait t a s log Hs) as (i & Ht & Hp & Hi).
    exists i. by rewrite Ht, Hp, Hi.
  - destruct Hsp as [Hgap Hsp]. cbn [run].
    change (last ((t, a) :: (t1, a1) :: calls))
      with (last ((t1, a1) :: calls)) in Hlast.
    destruct (executedFunction_idle wait t a s log Hs) as (i & Ht & Hp & Hi).
    assert (idle (advance t1 (executedFunction wait t a s))
                 (log ++ [(t + Timers.timerDelay wait, a)])) as Hidle.
    { eapply advance_one_due; [done..|lia]. }
    destruct (IH _ t1 a1 _ Hidle Hsp Hlast) as (j & Hj & Hpj & Hij).
    exists j. rewrite Hj, Hpj, Hij. by rewrite <- app_assoc.
Qed.


End DebounceMoreFacts.

Lemma debounce_burst_witness :
  Debounce.invoked
    (Debounce.advance 1000
       (Debounce.run 250 [(0, "a"); (100, "b"); (200, "c")] Debounce.initial))
  = [(450, "c")].
Proof.
  apply (debounce_burst 250 0 1000 200 "a" "c" [(100, "b"); (200, "c")]).
  - lia.
  - simpl. lia.
  - reflexivity.
  - lia.
Defined.


(** ** Throttle *)
Section ThrottleFacts.
Import Throttle.
Context {A : Type}.
Implicit Types (s : state A) (a : A).

Lemma invoked_advance now s : invoked (advance now s) = invoked s.
Proof. reflexivity. Qed.

Lemma call_invoked limit now a s :
  invoked (call limit now a s)
  = (invoked s ++ (if inThrottle s then [] else [(now, a)]))%list.
Proof. unfold call. destruct (inThrottle s); simpl; by rewrite ?app_nil_r. Qed.

Lemma run_invoked limit calls s :
  exists passed, passed `sublist_of` calls /\
                 invoked (run limit calls s) = (invoked s ++ passed)%list.
Proof.
  revert s. induction calls as [|[t a] calls IH]; intros s; simpl.
  { exists []. by rewrite app_nil_r. }
  destruct (IH (call limit t a (advance t s))) as (passed & Hsub & ->).
  rewrite call_invoked, invoked_advance.
  destruct (inThrottle (advance t s)).
  - exists passed. rewrite app_nil_r. split; [by apply sublist_cons | done].
  - exists ((t, a) :: passed). rewrite <- app_assoc.
    split; [by apply sublist_skip | done].
Qed.

(** Throttling is leading-edge and never delays: the first call gets
    through at once, and whatever the times of the calls, every invocation
    of the wrapped function happens at the time of one of the calls, with
    the arguments of that call, in the order of the calls. *)
Theorem throttle_passes_calls_through (limit t : Z) (a : A)
    (calls : list (Z * A)) :
  invoked (run limit calls initial) `sublist_of` calls /\
  exists rest, invoked (run limit ((t, a) :: calls) initial) = (t, a) :: rest.
Proof.
  split.
  - destruct (run_invoked limit calls initial) as (passed & Hsub & ->). done.
  - simpl.
    destruct (run_invoked limit calls (call limit t a (advance t initial)))
      as (passed & _ & ->).
    by exists passed.
Qed.


Lemma apart_snoc gap times y :
  apart gap times -> (forall x, last times = Some x -> x + gap <= y) ->
  apart gap (times ++ [y]).
Proof.
  induction times as [|x times IH]; [done|].
  destruct times as [|x' times]; simpl.
  - intros _ Hlast. split; [by apply Hlast | done].
  - intros [Hx Hap] Hlast. split; [done|]. apply IH; [done|].
    intros z Hz. apply Hlast. exact Hz.
Qed.

Lemma paced_step limit clock now a s :
  paced limit clock s -> clock <= now ->
  paced limit now (call limit now a (advance now s)).
Proof.
  intros [Hap Hlast] Hnow.
  destruct (last (invoked s)) as [[tl al]|] eqn:Hl.
  - assert (last (fst <$> invoked s) = Some tl) as Hlt
      by (by rewrite fmap_last, Hl).
    assert (tl + Timers.timerDelay limit <= now ->
            paced limit now
              (State true [now + Timers.timerDelay limit] (invoked s ++ [(now, a)])))
      as Hfree.
    { intros Hgap. split; simpl.
      - rewrite fmap_app. apply apart_snoc; [done|].
        intros x Hx. rewrite Hlt in Hx. by injection Hx as <-.
      - rewrite last_snoc. by left. }
    destruct Hlast as [[Hin Hr] | (Hin & Hr & Hback)].
    + unfold advance, call. rewrite Hr, Hin. simpl.
      destruct (Z.leb_spec (tl + Timers.timerDelay limit) now) as [Hdue | Hearly]; simpl.
      * by apply Hfree.
      * split; [done|]. simpl. rewrite Hl. by left.
    + unfold advance, call. rewrite Hr, Hin. simpl. apply Hfree. lia.
  - destruct Hlast as [Hin Hr]. apply last_None in Hl.
    unfold advance, call. rewrite Hr, Hin, Hl. simpl.
    split; [done|]. by left.
Qed.

Lemma paced_run limit clock calls s :
  paced limit clock s -> in_order clock calls ->
  exists clock', paced limit clock' (run limit calls s).
Proof.
  revert clock s. induction calls as [|[t a] calls IH]; intros clock s Hs Hord.
  { by exists clock. }
  destruct Hord as [Hle Hord]. simpl.
  apply (IH t); [|done]. by eapply paced_step.
Qed.


Lemma call_after_reset limit t now a (calls : list (Z * A)) :
  in_order t calls ->
  (forall tl al, last (invoked (run limit calls initial)) = Some (tl, al) ->
                 tl + Timers.timerDelay limit < now) ->
  invoked (call limit now a (advance now (run limit calls initial)))
  = (invoked (run limit calls initial) ++ [(now, a)])%list.
Proof.
  intros Hord Hback.
  destruct (paced_run limit t calls initial) as (clock' & _ & Hlast);
    [by split|done|].
  set (s := run limit calls initial) in *.
  rewrite call_invoked, invoked_advance.
  assert (inThrottle (advance now s) = false) as ->; [|done].
  unfold advance; simpl.
  destruct (last (invoked s)) as [[tl al]|]; [|by destruct Hlast as [-> ->]].
  specialize (Hback tl al eq_refl).
  destruct Hlast as [[_ ->] | (-> & -> & _)]; simpl; [|done].
  by rewrite (proj2 (Z.leb_le _ _)) by lia.
Qed.

(** Throttling does not starve: with calls in time order, a call that
    comes more than [limit] after the last invocation gets through,
    however many calls were dropped in between.  This holds for every
    limit from -2^31 on; [setTimeout] never waits longer than such a limit
    asks.  For every limit whatever, a call that comes more than the timer
    delay after the last invocation gets through, the timer delay being
    the limit as [setTimeout] takes it. *)
Theorem throttle_recovers (limit t now : Z) (a : A) (calls : list (Z * A)) :
  in_order t calls ->
  (-2147483648 <= limit ->
   (forall tl al, last (invoked (run limit calls initial)) = Some (tl, al) ->
                  tl + Z.max 0 limit < now) ->
   invoked (call limit now a (advance now (run limit calls initial)))
   = (invoked (run limit calls initial) ++ [(now, a)])%list) /\
  ((forall tl al, last (invoked (run limit calls initial)) = Some (tl, al) ->
                  tl + Timers.timerDelay limit < now) ->
   invoked (call limit now a (advance now (run limit calls initial)))
   = (invoked (run limit calls initial) ++ [(now, a)])%list).
Proof.
  intros Hord. split.
  - intros Hlimit Hback. apply (call_after_reset limit t); [done|].
    intros tl al Hl. specialize (Hback tl al Hl).
    pose proof (timerDelay_le limit Hlimit). lia.
  - intros Hback. by apply (call_after_reset limit t).
Qed.

End ThrottleFacts.



Lemma throttle_recovers_witness :
  Throttle.invoked
    (Throttle.call 100 150 "c"
       (Throttle.advance 150
          (Throttle.run 100 [(0, "a"); (50, "b")] Throttle.initial)))
  = [(0, "a"); (150, "c")].
Proof.
  destruct (throttle_recovers 100 0 150 "c" [(0, "a"); (50, "b")])
    as [Hlimit _].
  - simpl. lia.
  - apply Hlimit; [lia|]. intros tl al [= <- <-]. simpl. lia.
Defined.


(** ** The debounced resize listener *)
Section ResizeListenerFacts.
Import Nav ResizeListener.

Lemma settle_early s t now :
  Debounce.armed 250 (wrapper s) t tt -> now < t + 250 -> settle now s = s.
Proof.
  intros Harmed Hnow. unfold settle.
  rewrite (advance_armed_early 250 (wrapper s) t tt now Harmed Hnow).
  rewrite Nat.sub_diag. by destruct s.
Qed.

Lemma settle_late s t now :
  Debounce.armed 250 (wrapper s) t tt -> t + 250 <= now ->
  page (settle now s) = resizeHandler (page s).
Proof.
  intros Harmed Hnow. unfold settle.
  destruct (advance_armed_late 250 (wrapper s) t tt now Harmed Hnow)
    as [-> _].
  destruct Harmed as (i & _ & _ & ->). reflexivity.
Qed.

Lemma run_burst events s t w p :
  Debounce.armed 250 (wrapper s) t tt -> page s = with_width w p ->
  Debounce.rapid 250 t events ->
  exists final,
    last ((t, w) :: events) = Some final /\
    Debounce.armed 250 (wrapper (run events s)) final.1 tt /\
    page (run events s) = with_width final.2 p.
Proof.
  revert s t w. induction events as [|[t1 w1] events IH];
    intros s t w Harmed Hpage Hrapid.
  { by exists (t, w). }
  destruct Hrapid as [Hgap Hrapid]. cbn [run].
  destruct (IH (resize t1 w1 s) t1 w1) as (final & Hlast & Hfinal).
  - unfold resize. rewrite (settle_early s t t1) by (done || lia). simpl.
    eapply executedFunction_armed; [lia | done].
  - unfold resize. rewrite (settle_early s t t1) by (done || lia). simpl.
    by rewrite Hpage.
  - done.
  - exists final. split; [|done]. by rewrite last_cons_cons.
Qed.

(** A burst of resize events, each less than 250ms after the one before,
    runs the handler once, 250ms after the last event and with the width
    the window has then: until that moment the menu is as it was, and from
    then on the page is what the handler makes of it at the final width.
    Widening past 768 and narrowing back within a burst leaves an open
    menu open. *)
Theorem resize_burst_settles (t w now : Z) (events : list (Z * Z))
    (final : Z * Z) (p : Nav.page) :
  Debounce.rapid 250 t events ->
  last ((t, w) :: events) = Some final ->
  final.1 <= now ->
  page (settle now (run ((t, w) :: events) (start p)))
  = (if decide (final.1 + 250 <= now)
     then resizeHandler (with_width final.2 p)
     else with_width final.2 p).
Proof.
  intros Hrapid Hlast Hnow. cbn [run].
  destruct (run_burst events (resize t w (start p)) t w p)
    as (final' & Hlast' & Harmed & Hpage).
  - apply (first_call_armed (A := unit) 250 t tt). lia.
  - reflexivity.
  - done.
  - rewrite Hlast in Hlast'. injection Hlast' as <-.
    case_decide as Hlate.
    + by rewrite (settle_late _ _ _ Harmed Hlate), Hpage.
    + rewrite (settle_early _ _ _ Harmed) by lia. done.
Qed.

Lemma resize_burst_settles_witness :
  navbar_open
    (page (settle 5000
             (run [(0, 500); (100, 1000); (200, 500)]
                  (start (toggleClick sample_page)))))
  = true.
Proof.
  rewrite (resize_burst_settles 0 500 5000 [(100, 1000); (200, 500)] (200, 500)
             (toggleClick sample_page)).
  - reflexivity.
  - simpl. lia.
  - reflexivity.
  - simpl. lia.
Defined.

End ResizeListenerFacts.

(** ** The live region *)
Section LiveRegionFacts.
Import LiveRegion.

Lemma live_key_unique ls x y :
  NoDup (live_key <$> ls) -> x ∈ ls -> y ∈ ls -> live_key x = live_key y ->
  x = y.
Proof.
  induction ls as [|l ls IH].
  { by intros _ ?%elem_of_nil. }
  rewrite fmap_cons. intros [Hnotin Hnd]%NoDup_cons Hx Hy Hk.
  apply elem_of_cons in Hx as [->|Hx], Hy as [->|Hy]; [done| | |by apply IH].
  - exfalso. apply Hnotin. rewrite Hk. by apply list_elem_of_fmap_2.
  - exfalso. apply Hnotin. rewrite <- Hk. by apply list_elem_of_fmap_2.
Qed.

Lemma existsb_key k (ls : list live) :
  existsb (fun n => key n =? k)%nat
          ((fun l => Node (live_key l) (live_text l)) <$> ls)
  = bool_decide (k ∈ live_key <$> ls).
Proof.
  induction ls as [|l ls IH]; [done|].
  rewrite !fmap_cons. cbn [existsb key]. rewrite IH.
  destruct (Nat.eqb_spec (live_key l) k) as [Heq|Hne]; simpl.
  - symmetry. apply bool_decide_eq_true. apply elem_of_cons. by left.
  - apply bool_decide_ext. rewrite elem_of_cons. intuition congruence.
Qed.

Lemma filter_nodes k (ls : list live) :
  List.filter (fun n => negb (key n =? k)%nat)
              ((fun l => Node (live_key l) (live_text l)) <$> ls)
  = (fun l => Node (live_key l) (live_text l))
      <$> List.filter (fun l => negb (live_key l =? k)%nat) ls.
Proof.
  induction ls as [|l ls IH]; [done|].
  rewrite fmap_cons. cbn [List.filter key Debounce.id].
  destruct (live_key l =? k)%nat; cbn [negb]; rewrite IH; [done|].
  by rewrite fmap_cons.
Qed.

Lemma filter_timers k (ls : list live) :
  List.filter (fun t => negb (Debounce.id t =? k)%nat)
    ((fun l => Debounce.Timer (live_key l) (live_due l) (live_key l)) <$> ls)
  = (fun l => Debounce.Timer (live_key l) (live_due l) (live_key l))
      <$> List.filter (fun l => negb (live_key l =? k)%nat) ls.
Proof.
  induction ls as [|l ls IH]; [done|].
  rewrite fmap_cons. cbn [List.filter key Debounce.id].
  destruct (live_key l =? k)%nat; cbn [negb]; rewrite IH; [done|].
  by rewrite fmap_cons.
Qed.

Lemma NoDup_filter_keys (f : live -> bool) ls :
  NoDup (live_key <$> ls) -> NoDup (live_key <$> List.filter f ls).
Proof.
  induction ls as [|l ls IH]; [done|].
  rewrite fmap_cons. cbn [List.filter].
  intros [Hnotin Hnd]%NoDup_cons. destruct (f l); [|by apply IH].
  rewrite fmap_cons. apply NoDup_cons. split; [|by apply IH].
  intros (x & Hk & Hx)%list_elem_of_fmap. apply Hnotin. rewrite Hk.
  apply list_elem_of_fmap_2. apply list_elem_of_In in Hx.
  apply list_elem_of_In. by apply List.filter_In in Hx as [? _].
Qed.

Lemma tracks_filter (f : live -> bool) ls s nodes timers :
  tracks ls s ->
  nodes = (fun l => Node (live_key l) (live_text l)) <$> List.filter f ls ->
  timers = (fun l => Debounce.Timer (live_key l) (live_due l) (live_key l))
             <$> List.filter f ls ->
  tracks (List.filter f ls) (State nodes timers (fresh s)).
Proof.
  intros (Hnd & Hlt & _ & _) -> ->. split; [by apply NoDup_filter_keys|].
  split; [|done]. simpl. apply Forall_forall. intros l Hl.
  apply list_elem_of_In, List.filter_In in Hl as [Hl _].
  by apply (proj1 (Forall_forall _ _) Hlt), list_elem_of_In.
Qed.

(** A timer that is pending finds its node among the children. *)
Lemma fire_tracks ls s t :
  tracks ls s -> t ∈ removals s ->
  exists l,
    l ∈ ls /\ Debounce.due t = live_due l /\
    fire t s
    = Done (State
              ((fun l => Node (live_key l) (live_text l))
                 <$> List.filter (fun x => negb (live_key x =? live_key l)%nat) ls)
              ((fun l => Debounce.Timer (live_key l) (live_due l) (live_key l))
                 <$> List.filter (fun x => negb (live_key x =? live_key l)%nat) ls)
              (fresh s)).
Proof.
  intros (Hnd & Hlt & Hnodes & Htimers) Hin.
  rewrite Htimers in Hin. apply list_elem_of_fmap in Hin as (l & -> & Hl).
  exists l. split; [done|]. split; [done|].
  unfold fire, removeChild. cbn [Debounce.id Debounce.args].
  rewrite Hnodes, existsb_key, bool_decide_eq_true_2
    by (by apply list_elem_of_fmap_2).
  by rewrite filter_nodes, Htimers; simpl; rewrite filter_timers.
Qed.

Lemma filter_all {X} (f : X -> bool) (l : list X) :
  (forall x, x ∈ l -> f x = true) -> List.filter f l = l.
Proof.
  induction l as [|x l IH]; intros Hf; simpl; [done|].
  rewrite Hf by (apply elem_of_cons; by left). f_equal.
  apply IH. intros y Hy. apply Hf, elem_of_cons. by right.
Qed.

Lemma filter_absorb {X} (f g : X -> bool) (l : list X) :
  (forall x, x ∈ l -> f x = true -> g x = true) ->
  List.filter f (List.filter g l) = List.filter f l.
Proof.
  induction l as [|x l IH]; intros Hfg; simpl; [done|].
  assert (List.filter f (List.filter g l) = List.filter f l) as Hrest.
  { apply IH. intros y Hy. apply Hfg, elem_of_cons. by right. }
  destruct (g x) eqn:Hg; simpl; [by rewrite Hrest|].
  destruct (f x) eqn:Hf; [|done].
  rewrite Hfg in Hg; [done | apply elem_of_cons; by left | done].
Qed.

Lemma filter_shorter {X} (f : X -> bool) (l : list X) (x : X) :
  x ∈ l -> f x = false -> (length (List.filter f l) < length l)%nat.
Proof.
  induction l as [|y l IH]; [by intros ?%elem_of_nil|].
  intros [->|Hx]%elem_of_cons Hf; simpl.
  - rewrite Hf. pose proof (List.filter_length_le f l). lia.
  - specialize (IH Hx Hf). destruct (f y); simpl; lia.
Qed.

Lemma tracks_length ls s : tracks ls s -> length (removals s) = length ls.
Proof. intros (_ & _ & _ & ->). by rewrite length_fmap. Qed.

(** The event loop never fails on a tracked state, and it removes exactly
    the announcements that are due. *)
Lemma advance_rounds_tracks rounds now ls s :
  tracks ls s -> (length ls <= rounds)%nat ->
  exists s',
    advance_rounds rounds now s = Done s' /\
    tracks (List.filter (fun l => now <? live_due l) ls) s' /\
    fresh s' = fresh s.
Proof.
  revert ls s. induction rounds as [|n IH]; intros ls s Htr Hlen.
  { destruct ls; [|simpl in Hlen; lia]. by exists s. }
  cbn [advance_rounds].
  destruct (Debounce.next_due now (removals s)) as [t|] eqn:Hnext.
  - apply next_due_elem in Hnext as [Hin Hdue].
    destruct (fire_tracks ls s t Htr Hin) as (l & Hl & Hdl & ->).
    set (keep := fun x => negb (live_key x =? live_key l)%nat).
    assert (keep l = false) as Hkl by (unfold keep; by rewrite Nat.eqb_refl).
    destruct (IH (List.filter keep ls)
                 (State ((fun l0 => Node (live_key l0) (live_text l0))
                           <$> List.filter keep ls)
                        ((fun l0 => Debounce.Timer (live_key l0) (live_due l0)
                                                   (live_key l0))
                           <$> List.filter keep ls)
                        (fresh s)))
      as (s' & Hrun & Htr' & Hfresh).
    + by apply tracks_filter.
    + pose proof (filter_shorter keep ls l Hl Hkl). lia.
    + exists s'. split; [done|]. split; [|done].
      rewrite filter_absorb in Htr'; [done|].
      intros x Hx Hlate. unfold keep.
      destruct (Nat.eqb_spec (live_key x) (live_key l)) as [Hk|]; [|done].
      destruct Htr as (Hnd & _).
      rewrite (live_key_unique ls x l Hnd Hx Hl Hk) in Hlate.
      apply Z.ltb_lt in Hlate. lia.
  - exists s. split; [done|]. split; [|done].
    rewrite filter_all; [done|]. intros l Hl. apply Z.ltb_lt.
    apply (proj1 (next_due_none now (removals s)) Hnext
             (Debounce.Timer (live_key l) (live_due l) (live_key l))).
    destruct Htr as (_ & _ & _ & ->).
    by apply (list_elem_of_fmap_2' _ _ l).
Qed.

Lemma advance_tracks now ls s :
  tracks ls s ->
  exists s',
    advance now s = Done s' /\
    tracks (List.filter (fun l => now <? live_due l) ls) s' /\
    fresh s' = fresh s.
Proof.
  intros Htr. unfold advance. apply advance_rounds_tracks; [done|].
  by rewrite (tracks_length ls s Htr).
Qed.

Lemma announce_tracks theme now ls s :
  tracks ls s ->
  tracks (ls ++ [Live (fresh s) (now + 1000) (message theme)])
         (announceThemeChange theme now s).
Proof.
  intros (Hnd & Hlt & Hnodes & Htimers). unfold announceThemeChange.
  split; [|split; [|split]]; simpl.
  - rewrite fmap_app. apply NoDup_app. split; [done|]. split.
    + intros k (l & -> & Hl)%list_elem_of_fmap Hk.
      apply list_elem_of_singleton in Hk.
      pose proof (proj1 (Forall_forall _ _) Hlt l Hl) as Hlk. simpl in *. lia.
    + apply NoDup_singleton.
  - apply Forall_app. split.
    + eapply Forall_impl; [exact Hlt|]. simpl. intros; lia.
    + apply Forall_singleton. simpl. lia.
  - by rewrite fmap_app, Hnodes.
  - by rewrite fmap_app, Htimers.
Qed.

Lemma shows_filter now ls changes :
  shows ls changes ->
  shows (List.filter (fun l => now <? live_due l) ls) (recent now changes).
Proof.
  unfold shows, recent. revert changes.
  induction ls as [|l ls IH]; intros [|c changes]; try done.
  rewrite !fmap_cons. intros [= Hd Ht Hrest]. cbn [List.filter].
  rewrite Hd. destruct (now <? c.1 + 1000).
  - rewrite !fmap_cons, Hd, Ht. f_equal. by apply IH.
  - by apply IH.
Qed.

Lemma recent_recent clock now changes :
  clock <= now -> recent now (recent clock changes) = recent now changes.
Proof.
  intros Hle. apply filter_absorb. intros c _ Hc.
  apply Z.ltb_lt in Hc. apply Z.ltb_lt. lia.
Qed.

Lemma recent_snoc now changes theme :
  recent now (changes ++ [(now, theme)])
  = (recent now changes ++ [(now, theme)])%list.
Proof.
  unfold recent. rewrite List.filter_app. simpl.
  by rewrite (proj2 (Z.ltb_lt now (now + 1000))) by lia.
Qed.

Lemma shows_snoc ls changes k now theme :
  shows ls changes ->
  shows (ls ++ [Live k (now + 1000) (message theme)])
        (changes ++ [(now, theme)]).
Proof. unfold shows. intros H. by rewrite !fmap_app, H. Qed.

Lemma last_time_cons clock now theme (rest : list (Z * string)) :
  from_option fst clock (last ((now, theme) :: rest))
  = from_option fst now (last rest).
Proof.
  destruct rest as [|c rest]; [done|]. rewrite last_cons_cons.
  destruct (last_is_Some (c :: rest)) as [_ [f Hf]]; [done|].
  by rewrite Hf.
Qed.

(** No run of theme changes in time order fails, and the announcements on
    the page are those of the changes of the last second. *)
Lemma run_tracks rest past ls s clock :
  tracks ls s -> shows ls (recent clock past) ->
  Throttle.in_order clock rest ->
  exists s' ls',
    run rest s = Done s' /\ tracks ls' s' /\
    shows ls' (recent (from_option fst clock (last rest)) (past ++ rest)).
Proof.
  revert past ls s clock.
  induction rest as [|[now theme] rest IH]; intros past ls s clock Htr Hsh Hord.
  { exists s, ls. rewrite app_nil_r. split; [done|]. by split. }
  destruct Hord as [Hle Hord]. cbn [run].
  destruct (advance_tracks now ls s Htr) as (s1 & -> & Htr1 & Hfresh).
  pose proof (announce_tracks theme now _ s1 Htr1) as Htr2.
  destruct (IH (past ++ [(now, theme)])%list _ _ now Htr2)
    as (s' & ls' & Hrun & Htr' & Hsh').
  - rewrite recent_snoc. apply shows_snoc.
    rewrite <- (recent_recent clock now past Hle). by apply shows_filter.
  - done.
  - exists s', ls'. split; [done|]. split; [done|].
    by rewrite last_time_cons, cons_middle, app_assoc.
Qed.

Lemma in_order_last clock (changes : list (Z * string)) c :
  Throttle.in_order clock changes -> c ∈ changes ->
  c.1 <= from_option fst clock (last changes).
Proof.
  revert clock. induction changes as [|[t th] changes IH]; intros clock.
  { by intros _ ?%elem_of_nil. }
  intros [Hle Hord] Hc. rewrite last_time_cons.
  apply elem_of_cons in Hc as [->|Hc]; [|by apply IH].
  clear IH Hle. revert t Hord.
  induction changes as [|[t1 th1] changes IH]; intros t Hord; [simpl; lia|].
  destruct Hord as [Hle Hord]. rewrite last_time_cons.
  specialize (IH t1 Hord). simpl in *. lia.
Qed.

(** The live region does not leak and does not fail: for theme changes in
    time order, no removal timer ever finds its node gone, the
    announcements on the page at any later time are exactly those of the
    changes made within the last second, in order, each with its removal
    still pending, and a second after the last change none is left. *)
Theorem announcements_never_leak (t now : Z) (theme : string)
    (changes : list (Z * string)) (final : Z * string) :
  Throttle.in_order t changes ->
  last ((t, theme) :: changes) = Some final ->
  final.1 <= now ->
  exists s1 s,
    run ((t, theme) :: changes) initial = Done s1 /\
    advance now s1 = Done s /\
    textContent <$> liveNodes s
    = (fun c => message c.2) <$> recent now ((t, theme) :: changes) /\
    length (removals s) = length (liveNodes s) /\
    (final.1 + 1000 <= now -> liveNodes s = [] /\ removals s = []).
Proof.
  intros Hord Hlast Hnow.
  destruct (run_tracks ((t, theme) :: changes) [] [] initial t)
    as (s1 & ls1 & Hrun & Htr1 & Hsh1).
  { repeat split; simpl; by constructor. }
  { done. }
  { split; [lia | done]. }
  rewrite Hlast in Hsh1. cbn [from_option app] in Hsh1.
  destruct (advance_tracks now ls1 s1 Htr1) as (s & Hadv & Htr & _).
  exists s1, s. split; [done|]. split; [done|].
  pose proof (shows_filter now _ _ Hsh1) as Hsh.
  rewrite recent_recent in Hsh by done.
  assert (textContent <$> liveNodes s
          = (fun c => message c.2) <$> recent now ((t, theme) :: changes))
    as Htexts.
  { destruct Htr as (_ & _ & -> & _). unfold shows in Hsh.
    apply (f_equal (fmap snd)) in Hsh.
    rewrite <- !list_fmap_compose in Hsh. rewrite <- list_fmap_compose.
    exact Hsh. }
  split; [done|]. split.
  - destruct Htr as (_ & _ & -> & ->). by rewrite !length_fmap.
  - intros Hgone.
    assert (recent now ((t, theme) :: changes) = []) as Hnone.
    { unfold recent. apply filter_none. intros c Hc. apply Z.ltb_ge.
      pose proof (in_order_last t ((t, theme) :: changes) c) as Hle.
      rewrite Hlast in Hle. simpl in Hle.
      specialize (Hle (conj (Z.le_refl t) Hord) Hc). lia. }
    rewrite Hnone in Hsh. unfold shows in Hsh. simpl in Hsh.
    apply fmap_nil_inv in Hsh.
    destruct Htr as (_ & _ & -> & ->). by rewrite Hsh.
Qed.

Lemma announcements_never_leak_witness :
  exists s1 s,
    run [(0, "light"); (400, "dark"); (900, "light")] initial = Done s1 /\
    advance 1500 s1 = Done s /\
    textContent <$> liveNodes s
    = ["Theme changed to light mode"].
Proof.
  destruct (announcements_never_leak 0 1500 "light"
              [(400, "dark"); (900, "light")] (900, "light"))
    as (s1 & s & Hrun & Hadv & Htexts & _).
  - simpl. lia.
  - reflexivity.
  - simpl. lia.
  - exists s1, s. split; [exact Hrun|]. split; [exact Hadv | exact Htexts].
Defined.

End LiveRegionFacts.
